(** * gen: an indentation-aware text generator

    Shallow embedding of [gen.go] (package [gen]) and the properties of its
    [Generator]: the cursor/indentation state machine behind [Inline],
    [Line], [Raw], [Break], the depth operations and [Block].

    Conventions of the embedding:
    - a Go [string] is a byte sequence: [String.string] (a list of [ascii]);
    - [strings.Builder] is the text written so far; [WriteString] appends;
    - Go's [int] is taken at 64 bits, a [Z] with the wrap-around written out;
    - a method mutates the generator it is called on: here it maps the state
      before the call to the state after it;
    - a Go panic unwinds the call and leaves the mutations made so far in the
      generator: an [Outcome] is either [Done g] or [Panic msg g], and both
      carry the generator as the call left it. *)

From Stdlib Require Import ZArith Lia Bool List Ascii String.
From Stdlib Require Import Numbers.DecimalString.
Import ListNotations.

Local Open Scope string_scope.
Local Open Scope Z_scope.

(** ** Bytes and strings *)

(** The line-break byte (Go writes it as "\n"). *)
Definition LF : ascii := Ascii.ascii_of_nat 10.

(** The one-byte string holding a line break. *)
Definition nl : string := String LF EmptyString.

(** [len(s)] as a Go [int]. *)
Definition len (s : string) : Z := Z.of_nat (String.length s).

(** [s] written [n] times in a row. *)
Fixpoint repeat_string (s : string) (n : nat) : string :=
  match n with
  | O => EmptyString
  | S n' => s ++ repeat_string s n'
  end.

(** The last byte of a string, if it has one. *)
Fixpoint last_byte (s : string) : option ascii :=
  match s with
  | EmptyString => None
  | String c EmptyString => Some c
  | String _ rest => last_byte rest
  end.

(** Whether the last byte of [s] is a line break. *)
Definition ends_in_newline (s : string) : bool :=
  match last_byte s with
  | Some c => Ascii.eqb c LF
  | None => false
  end.

(** Whether [s] holds the byte [c]. *)
Fixpoint contains_byte (c : ascii) (s : string) : bool :=
  match s with
  | EmptyString => false
  | String c' rest => Ascii.eqb c' c || contains_byte c rest
  end.


(** ** Go's [int] *)

Definition intSize : Z := 64.
Definition maxInt : Z := 2 ^ (intSize - 1) - 1.
Definition minInt : Z := - 2 ^ (intSize - 1).

(** Signed wrap-around of an integer result into the range of [int]. *)
Definition wrap (z : Z) : Z := (z - minInt) mod 2 ^ intSize + minInt.

Definition is_int (z : Z) : Prop := minInt <= z <= maxInt.

(** ** The functions of package [strings] that [gen.go] calls *)

(** A value, or the panic raised instead of it. *)
Inductive result (A : Type) : Type :=
| Ok (a : A)
| Panics (msg : string).
Arguments Ok {A} a.
Arguments Panics {A} msg.

(** The largest size the runtime agrees to allocate: 2^48 bytes on a
    64-bit platform. *)
Definition maxAlloc : Z := 2 ^ 48.

(** [strings.Repeat(s, count)], as in current Go on a 64-bit platform:
    [count] copies of [s].  It returns at once for a count of 0 or 1; it panics
    when [count] is negative and when [len(s) * count] overflows [int];
    it returns the empty string for an empty [s]; otherwise it allocates
    the [len(s) * count] bytes of the copies, which the runtime refuses
    above [maxAlloc] with the panic of a [runtime.Error] (its text:
    makeslice: len out of range).

    Below [maxAlloc] the allocation succeeds when the machine has the
    memory; when it has not, the runtime ends the process, and there is
    no outcome of the call to speak of.  [Ok] stands for the value of a
    call that returned: what is said below of a call that needs copies is
    said under the hypothesis that [Repeat] answered [Ok]. *)
Definition Repeat (s : string) (count : Z) : result string :=
  if count =? 0 then Ok EmptyString
  else if count =? 1 then Ok s
  else if count <? 0 then Panics "strings: negative Repeat count"
  else if maxInt <? len s * count
       then Panics "strings: Repeat output length overflow"
  else if len s =? 0 then Ok EmptyString
  else if maxAlloc <? len s * count
       then Panics "makeslice: len out of range"
  else Ok (repeat_string s (Z.to_nat count)).


(** [strings.Split(s, sep)] for a one-byte separator: the pieces of [s]
    between the occurrences of [sep]; never an empty list. *)
Fixpoint Split (s : string) (sep : ascii) : list string :=
  match s with
  | EmptyString => [EmptyString]
  | String c rest =>
      if Ascii.eqb c sep then EmptyString :: Split rest sep
      else match Split rest sep with
           | piece :: pieces => String c piece :: pieces
           | [] => [String c EmptyString]
           end
  end.

(** [strings.HasSuffix(s, suffix)]:
    [len(s) >= len(suffix) && s[len(s)-len(suffix):] == suffix]. *)
Definition HasSuffix (s suffix : string) : bool :=
  (String.length suffix <=? String.length s)%nat
  && String.eqb
       (substring (String.length s - String.length suffix)
                  (String.length suffix) s)
       suffix.

(** ** The generator *)

Record Generator : Type := mkGenerator {
  sb : string;            (* strings.Builder: the text written so far *)
  indentLevel : Z;        (* int *)
  indentString : string;
  atStartOfLine : bool    (* whether the next write should be indented *)
}.

(** [g.sb.WriteString(s)] *)
Definition WriteString (s : string) (g : Generator) : Generator :=
  mkGenerator (sb g ++ s) (indentLevel g) (indentString g) (atStartOfLine g).

(** [g.atStartOfLine = b] *)
Definition set_atStartOfLine (b : bool) (g : Generator) : Generator :=
  mkGenerator (sb g) (indentLevel g) (indentString g) b.

(** [g.indentLevel = n] *)
Definition set_indentLevel (n : Z) (g : Generator) : Generator :=
  mkGenerator (sb g) n (indentString g) (atStartOfLine g).

(** [g.indentString = s] *)
Definition set_indentString (s : string) (g : Generator) : Generator :=
  mkGenerator (sb g) (indentLevel g) s (atStartOfLine g).

(** How a call on a generator ends. *)
Inductive Outcome : Type :=
| Done (g : Generator)
| Panic (msg : string) (g : Generator).

(** The generator as the call left it, however it ended. *)
Definition state_of (o : Outcome) : Generator :=
  match o with
  | Done g => g
  | Panic _ g => g
  end.

(** Sequencing: what follows a call runs only if the call returned. *)
Definition and_then (o : Outcome) (k : Generator -> Outcome) : Outcome :=
  match o with
  | Done g => k g
  | Panic msg g => Panic msg g
  end.

Notation "o >>= k" := (and_then o k) (at level 50, left associativity).

(** [New()] *)
Definition New : Generator :=
  mkGenerator EmptyString 0 "  " true.

(** [g.WithSpaces(spaces)]: the panic of [strings.Repeat] happens before
    the assignment. *)
Definition WithSpaces (spaces : Z) (g : Generator) : Outcome :=
  match Repeat " " spaces with
  | Ok unit => Done (set_indentString unit g)
  | Panics msg => Panic msg g
  end.

(** [g.WithTabs()] *)
Definition WithTabs (g : Generator) : Generator :=
  set_indentString (String (Ascii.ascii_of_nat 9) EmptyString) g.

(** [g.Indent()]: [g.indentLevel++] *)
Definition Indent (g : Generator) : Generator :=
  set_indentLevel (wrap (indentLevel g + 1)) g.

(** [g.Dedent()]: [if g.indentLevel > 0 { g.indentLevel-- }] *)
Definition Dedent (g : Generator) : Generator :=
  if 0 <? indentLevel g
  then set_indentLevel (wrap (indentLevel g - 1)) g
  else g.

(** [g.Raw(content)] *)
Definition Raw (content : string) (g : Generator) : Generator :=
  if String.eqb content EmptyString then g
  else
    let g := WriteString content g in
    if HasSuffix content nl
    then set_atStartOfLine true g
    else set_atStartOfLine false g.

(** [g.Break()] *)
Definition Break (g : Generator) : Generator :=
  set_atStartOfLine true (WriteString nl g).

(** One turn of the loop of [Inline], for the sub-line at index [idx]. *)
Definition Inline_subline (idx : nat) (subline : string) (g : Generator)
  : Outcome :=
  let g := if (0 <? idx)%nat
           then set_atStartOfLine true (WriteString nl g)
           else g in
  if negb (String.eqb subline EmptyString) then
    (if atStartOfLine g
     then match Repeat (indentString g) (indentLevel g) with
          | Ok prefix => Done (WriteString prefix g)
          | Panics msg => Panic msg g
          end
     else Done g)
    >>= fun g => Done (set_atStartOfLine false (WriteString subline g))
  else Done g.

(** [for idx, subline := range sublines { ... }], from index [idx] on. *)
Fixpoint Inline_range (idx : nat) (sublines : list string) (g : Generator)
  : Outcome :=
  match sublines with
  | [] => Done g
  | subline :: rest =>
      Inline_subline idx subline g >>= Inline_range (S idx) rest
  end.

(** [g.Inline(content)] *)
Definition Inline (content : string) (g : Generator) : Outcome :=
  if String.eqb content EmptyString then Done g
  else
    Inline_range 0 (Split content LF) g >>= fun g =>
    Done (if HasSuffix content nl then set_atStartOfLine true g else g).

(** [g.Line(content)]: [g.Inline(content); g.Break()] *)
Definition Line (content : string) (g : Generator) : Outcome :=
  Inline content g >>= fun g => Done (Break g).

(** [g.Block(fn)]: [g.Indent(); fn(); g.Dedent()].  The callback is any
    code working on the generator; it may panic.  There is no [defer]:
    [Dedent] is an ordinary statement after the call of [fn]. *)
Definition Block (fn : Generator -> Outcome) (g : Generator) : Outcome :=
  fn (Indent g) >>= fun g => Done (Dedent g).

(** [g.String()] *)
Definition String_ (g : Generator) : string := sb g.


(** ** Formatted variants

    [Rawf], [Inlinef] and [Linef] pass [fmt.Sprintf(format, args...)] to
    [Raw], [Inline] and [Line].  [fmt.Sprintf] belongs to Go's library; its
    type is [func(format string, a ...any) string]: it returns a string and
    nothing else.  The variants are embedded over any function of that
    type. *)
Section Formatted.

Context {any : Type}.
Variable Sprintf : string -> list any -> string.

(** [g.Rawf(format, args...)] *)
Definition Rawf (format : string) (args : list any) (g : Generator)
  : Generator :=
  Raw (Sprintf format args) g.

(** [g.Inlinef(format, args...)] *)
Definition Inlinef (format : string) (args : list any) (g : Generator)
  : Outcome :=
  Inline (Sprintf format args) g.

(** [g.Linef(format, args...)] *)
Definition Linef (format : string) (args : list any) (g : Generator)
  : Outcome :=
  Line (Sprintf format args) g.

End Formatted.

(** ** A fragment of [fmt.Sprintf]

    Templates made of plain text and the directives [%%], [%s], [%d] and
    [%v] (no flags, width, precision or argument index), over string and
    int operands.  [doPrintf] answers [None] for a template that leaves
    the fragment. *)
Module Fmt.

Inductive operand : Type :=
| AString (s : string)
| AInt (i : Z).

Definition percent : ascii := Ascii.ascii_of_nat 37.
Definition verb_s : ascii := Ascii.ascii_of_nat 115.
Definition verb_d : ascii := Ascii.ascii_of_nat 100.
Definition verb_v : ascii := Ascii.ascii_of_nat 118.

(** [reflect.TypeOf(arg).String()] *)
Definition type_name (a : operand) : string :=
  match a with
  | AString _ => "string"
  | AInt _ => "int"
  end.

(** The operand under [%v]. *)
Definition format_v (a : operand) : string :=
  match a with
  | AString s => s
  | AInt i => NilZero.string_of_int (Z.to_int i)
  end.

(** [badVerb]: a verb that does not fit its operand is written out as
    [%!verb(type=value)]. *)
Definition badVerb (verb : ascii) (a : operand) : string :=
  "%!" ++ String verb "(" ++ type_name a ++ "=" ++ format_v a ++ ")".

(** [printArg(arg, verb)] for the verbs [s], [d] and [v]. *)
Definition printArg (a : operand) (verb : ascii) : string :=
  match a with
  | AString s =>
      if Ascii.eqb verb verb_s || Ascii.eqb verb verb_v then s
      else badVerb verb a
  | AInt _ =>
      if Ascii.eqb verb verb_d || Ascii.eqb verb verb_v then format_v a
      else badVerb verb a
  end.

(** The operands left over when the template ends, as [type=value]
    separated by commas. *)
Fixpoint extra_operands (args : list operand) : string :=
  match args with
  | [] => EmptyString
  | [a] => type_name a ++ "=" ++ format_v a
  | a :: rest => type_name a ++ "=" ++ format_v a ++ ", " ++ extra_operands rest
  end.

Definition extra (args : list operand) : string :=
  match args with
  | [] => EmptyString
  | _ => "%!(EXTRA " ++ extra_operands args ++ ")"
  end.

(** [missingArg]: a verb with no operand left is written out as
    [%!verb(MISSING)]. *)
Definition missingArg (verb : ascii) : string :=
  "%!" ++ String verb "(MISSING)".

Fixpoint doPrintf (format : string) (args : list operand) : option string :=
  match format with
  | EmptyString => Some (extra args)
  | String c rest =>
      if Ascii.eqb c percent then
        match rest with
        | EmptyString => Some ("%!(NOVERB)" ++ extra args)
        | String verb rest' =>
            if Ascii.eqb verb percent
            then option_map (String percent) (doPrintf rest' args)
            else if Ascii.eqb verb verb_s || Ascii.eqb verb verb_d
                    || Ascii.eqb verb verb_v
            then match args with
                 | [] =>
                     option_map (append (missingArg verb))
                                (doPrintf rest' [])
                 | a :: args' =>
                     option_map (append (printArg a verb))
                                (doPrintf rest' args')
                 end
            else None
        end
      else option_map (String c) (doPrintf rest args)
  end.

(** [fmt.Sprintf] on the fragment.  Outside the fragment the answer
    (the empty string) is not Go's; statements that evaluate [Sprintf]
    say that [doPrintf] answers on their template. *)
Definition Sprintf (format : string) (args : list operand) : string :=
  match doPrintf format args with
  | Some s => s
  | None => EmptyString
  end.

End Fmt.

(** ** Programs over a generator

    What a caller, or the callback given to [Block], does with one
    generator: the methods in sequence, a panic of its own, and the
    recovery of a panic ([defer] with [recover()] around a piece of code),
    after which the caller goes on with the generator as the panic left
    it. *)
Inductive Script : Type :=
| SSkip
| SSeq (first second : Script)
| SInline (content : string)
| SLine (content : string)
| SRaw (content : string)
| SBreak
| SIndent
| SDedent
| SWithSpaces (spaces : Z)
| SWithTabs
| SBlock (body : Script)
| SPanic (msg : string)
| SRecover (body : Script).

Fixpoint run (s : Script) (g : Generator) : Outcome :=
  match s with
  | SSkip => Done g
  | SSeq first second => run first g >>= run second
  | SInline content => Inline content g
  | SLine content => Line content g
  | SRaw content => Done (Raw content g)
  | SBreak => Done (Break g)
  | SIndent => Done (Indent g)
  | SDedent => Done (Dedent g)
  | SWithSpaces spaces => WithSpaces spaces g
  | SWithTabs => Done (WithTabs g)
  | SBlock body => Block (run body) g
  | SPanic msg => Panic msg g
  | SRecover body => Done (state_of (run body g))
  end.

(** How many times a script can raise the depth: its [Indent]s and
    [Block]s. *)
Fixpoint indents (s : Script) : Z :=
  match s with
  | SSeq first second => indents first + indents second
  | SIndent => 1
  | SBlock body => 1 + indents body
  | SRecover body => indents body
  | _ => 0
  end.

(** The script that calls [Indent] [n] times. *)
Definition indent_times (n : N) : Script :=
  N.iter n (SSeq SIndent) SSkip.


(** ** What the operations are measured against *)

(** The indentation prefix of a generator: its unit, [indentLevel]
    times. *)
Definition indentation (g : Generator) : string :=
  repeat_string (indentString g) (Z.to_nat (indentLevel g)).

(** What one sub-line adds to the buffer: nothing when it is empty,
    otherwise its text, after the prefix when the cursor is at the start
    of a line. *)
Definition subline_text (prefix : string) (at_start : bool) (s : string)
  : string :=
  match s with
  | EmptyString => EmptyString
  | _ => (if at_start then prefix else EmptyString) ++ s
  end.

(** What the sub-lines after the first add: each one a break, then the
    sub-line written from the start of a line. *)
Fixpoint later_sublines_text (prefix : string) (sublines : list string)
  : string :=
  match sublines with
  | [] => EmptyString
  | s :: rest =>
      nl ++ subline_text prefix true s ++ later_sublines_text prefix rest
  end.

(** What [Inline] adds to the buffer, in the words of its contract. *)
Definition Inline_text (prefix : string) (at_start : bool) (content : string)
  : string :=
  match Split content LF with
  | [] => EmptyString
  | first :: rest =>
      subline_text prefix at_start first ++ later_sublines_text prefix rest
  end.

(** The core write, in the words of its contract: nothing for empty
    content; otherwise the text of the sub-lines, and a cursor at the
    start of a line exactly when the content ends with a break. *)
Definition Inline_spec (content : string) (g : Generator) : Generator :=
  match content with
  | EmptyString => g
  | _ =>
      mkGenerator
        (sb g ++ Inline_text (indentation g) (atStartOfLine g) content)
        (indentLevel g) (indentString g) (ends_in_newline content)
  end.

(** The cursor flag a buffer calls for: at the start of a line when the
    buffer is empty or ends with a break. *)
Definition line_start_of (buffer : string) : bool :=
  match last_byte buffer with
  | None => true
  | Some c => Ascii.eqb c LF
  end.

(** The flag after the loop of [Inline] over [sublines], entered with flag
    [flag]; [later] says that the first of them is not the first sub-line
    of the content. *)
Fixpoint flag_after (later : bool) (sublines : list string) (flag : bool)
  : bool :=
  match sublines with
  | [] => flag
  | s :: rest =>
      flag_after true rest
        (match s with EmptyString => later || flag | _ => false end)
  end.

(** What the loop of [Inline] adds over [sublines], entered with flag
    [flag]; [later] as in [flag_after]. *)
Fixpoint range_text (prefix : string) (later : bool) (sublines : list string)
         (flag : bool) : string :=
  match sublines with
  | [] => EmptyString
  | s :: rest =>
      (if later then nl else EmptyString)
      ++ subline_text prefix (later || flag) s
      ++ range_text prefix true rest
           (match s with EmptyString => later || flag | _ => false end)
  end.

(** Depth and unit after a call are those before it. *)
Definition same_indent (g g' : Generator) : Prop :=
  indentLevel g' = indentLevel g /\ indentString g' = indentString g.

(** The cursor flag is the one the buffer calls for. *)
Definition cursor_tracks_buffer (g : Generator) : Prop :=
  atStartOfLine g = line_start_of (sb g).

(** [n] space bytes. *)
Fixpoint n_spaces (n : nat) : string :=
  match n with
  | O => EmptyString
  | S n' => String (Ascii.ascii_of_nat 32) (n_spaces n')
  end.

(** ** Further notions used to describe the operations *)

(** One byte of content, written the way [Inline] treats it: a break is
    written and puts the cursor at the start of a line; any other byte is
    written after the prefix when the cursor is at the start of a line,
    and takes the cursor off it. *)
Definition write_byte (c : ascii) (g : Generator) : Outcome :=
  if Ascii.eqb c LF then Done (Break g)
  else
    (if atStartOfLine g
     then match Repeat (indentString g) (indentLevel g) with
          | Ok prefix => Done (WriteString prefix g)
          | Panics msg => Panic msg g
          end
     else Done g)
    >>= fun g =>
          Done (set_atStartOfLine false (WriteString (String c EmptyString) g)).

(** The bytes of a content, written one after the other. *)
Fixpoint write_bytes (content : string) (g : Generator) : Outcome :=
  match content with
  | EmptyString => Done g
  | String c rest => write_byte c g >>= write_bytes rest
  end.

(** A buffer that is an earlier buffer with text added at its end. *)
Definition extends (before after : string) : Prop :=
  exists written, after = before ++ written.

(** Scripts that change the depth through [Block] only, and recover no
    panic. *)
Fixpoint block_structured (s : Script) : bool :=
  match s with
  | SSeq first second => block_structured first && block_structured second
  | SBlock body => block_structured body
  | SIndent | SDedent | SRecover _ => false
  | _ => true
  end.

(** The script that calls [Line] on each content in turn. *)
Fixpoint lines (contents : list string) : Script :=
  match contents with
  | [] => SSkip
  | content :: rest => SSeq (SLine content) (lines rest)
  end.

(** Lines as they stand in the output: each one after the prefix, unless
    it is empty, and closed by a break. *)
Fixpoint render_lines (prefix : string) (contents : list string) : string :=
  match contents with
  | [] => EmptyString
  | content :: rest =>
      subline_text prefix true content ++ nl ++ render_lines prefix rest
  end.


(** * Properties *)

(** ** The embedding on the repository's tests *)

(** TestBasicIndentation/DefaultIndentation *)
Example test_DefaultIndentation :
  run (SSeq (SLine "if (true) {")
      (SSeq SIndent
      (SSeq (SLine "console.log('hello')")
      (SSeq SDedent
            (SLine "}"))))) New
  = Done (mkGenerator
            ("if (true) {" ++ nl ++ "  console.log('hello')" ++ nl
             ++ "}" ++ nl)
            0 "  " true).
Proof. reflexivity. Qed.

(** TestBasicIndentation/Empty lines *)
Example test_Empty_lines :
  option_map String_
    (match run (SSeq (SWithSpaces 2)
               (SSeq (SLine "// This is a comment")
               (SSeq SBreak
               (SSeq SBreak
                     (SLine "// This is other comment"))))) New with
     | Done g => Some g
     | Panic _ _ => None
     end)
  = Some ("// This is a comment" ++ nl ++ nl ++ nl
          ++ "// This is other comment" ++ nl).
Proof. reflexivity. Qed.

(** TestBlock/NestedBlocks *)
Example test_NestedBlocks :
  option_map String_
    (match run (SSeq (SWithSpaces 2)
               (SSeq (SLine "function example() {")
               (SSeq (SBlock
                        (SSeq (SLine "if (condition) {")
                        (SSeq (SBlock (SLine "console.log('condition true')"))
                        (SSeq (SLine "} else {")
                        (SSeq (SBlock (SLine "console.log('condition false')"))
                              (SLine "}"))))))
                     (SLine "}")))) New with
     | Done g => Some g
     | Panic _ _ => None
     end)
  = Some ("function example() {" ++ nl
          ++ "  if (condition) {" ++ nl
          ++ "    console.log('condition true')" ++ nl
          ++ "  } else {" ++ nl
          ++ "    console.log('condition false')" ++ nl
          ++ "  }" ++ nl
          ++ "}" ++ nl).
Proof. reflexivity. Qed.

(** TestSublines *)
Example test_Sublines :
  option_map String_
    (match run (SSeq (SWithSpaces 2)
               (SSeq (SLine "function test() {")
               (SSeq (SBlock (SLine ("console.log('hello')" ++ nl
                                     ++ "console.log('world')")))
                     (SLine "}")))) New with
     | Done g => Some g
     | Panic _ _ => None
     end)
  = Some ("function test() {" ++ nl
          ++ "  console.log('hello')" ++ nl
          ++ "  console.log('world')" ++ nl
          ++ "}" ++ nl).
Proof. reflexivity. Qed.

(** TestInlineContinuation/Inline multiple times on same line *)
Example test_Inline_continuation :
  run (SSeq (SWithSpaces 2)
      (SSeq (SLine "const x = ")
      (SSeq SIndent
      (SSeq (SInline "1")
      (SSeq (SInline " + ")
            (SInline "2;")))))) New
  = Done (mkGenerator ("const x = " ++ nl ++ "  1 + 2;") 1 "  " false).
Proof. reflexivity. Qed.

(** TestLinef/TypeScriptInterface, first line, on the fragment of
    [fmt.Sprintf]. *)
Example test_Linef :
  Fmt.doPrintf "interface %s {" [Fmt.AString "User"]
  = Some "interface User {"
  /\ Linef Fmt.Sprintf "interface %s {" [Fmt.AString "User"] New
     = Done (mkGenerator ("interface User {" ++ nl) 0 "  " true).
Proof. split; reflexivity. Qed.

(** ** Strings *)

Lemma append_nil_r (s : string) : s ++ EmptyString = s.
Proof. induction s as [|c s IH]; simpl; [reflexivity | now rewrite IH]. Qed.

Lemma append_assoc (a b c : string) : (a ++ b) ++ c = a ++ (b ++ c).
Proof. induction a as [|x a IH]; simpl; [reflexivity | now rewrite IH]. Qed.

Lemma last_byte_some (c : ascii) (s : string) :
  last_byte (String c s) <> None.
Proof.
  revert c. induction s as [|d s IH]; intros c; simpl; [discriminate|].
  apply IH.
Qed.

Lemma last_byte_cons (c : ascii) (s : string) :
  last_byte (String c s)
  = match last_byte s with Some d => Some d | None => Some c end.
Proof.
  destruct s as [|d s]; [reflexivity|].
  change (last_byte (String c (String d s))) with (last_byte (String d s)).
  destruct (last_byte (String d s)) eqn:E; [reflexivity|].
  now apply last_byte_some in E.
Qed.

Lemma last_byte_none (s : string) : last_byte s = None -> s = EmptyString.
Proof.
  destruct s as [|c s]; [reflexivity|].
  intros H. now apply last_byte_some in H.
Qed.

Lemma last_byte_append (a b : string) :
  last_byte (a ++ b)
  = match last_byte b with Some c => Some c | None => last_byte a end.
Proof.
  induction a as [|x a IH].
  - simpl. now destruct (last_byte b).
  - change (String x a ++ b) with (String x (a ++ b)).
    rewrite !last_byte_cons, IH.
    destruct (last_byte b), (last_byte a); reflexivity.
Qed.

(** The final byte of a string, as [HasSuffix] slices it out. *)
Lemma substring_last (s : string) :
  substring (String.length s - 1) 1 s
  = match last_byte s with
    | Some c => String c EmptyString
    | None => EmptyString
    end.
Proof.
  induction s as [|c s IH]; [reflexivity|].
  rewrite last_byte_cons.
  destruct s as [|d s]; [reflexivity|].
  simpl String.length in *. simpl Nat.sub in *.
  rewrite Nat.sub_0_r in IH.
  change (substring (S (String.length s)) 1 (String c (String d s)))
    with (substring (String.length s) 1 (String d s)).
  rewrite IH. destruct (last_byte (String d s)) eqn:E; [reflexivity|].
  apply last_byte_none in E. discriminate.
Qed.

(** [strings.HasSuffix(s, "\n")] says whether the last byte of [s] is a
    break. *)
Lemma HasSuffix_nl (s : string) : HasSuffix s nl = ends_in_newline s.
Proof.
  unfold HasSuffix, ends_in_newline, nl.
  simpl String.length. rewrite substring_last.
  destruct s as [|c s]; [reflexivity|].
  rewrite last_byte_cons.
  replace (1 <=? String.length (String c s))%nat with true
    by (symmetry; apply Nat.leb_le; simpl; lia).
  simpl andb.
  destruct (last_byte s) as [d|]; simpl.
  - destruct (Ascii.eqb d LF); reflexivity.
  - destruct (Ascii.eqb c LF); reflexivity.
Qed.



(** ** [strings.Split] *)

Lemma Split_not_nil (s : string) (sep : ascii) : Split s sep <> [].
Proof.
  destruct s as [|c s]; simpl; [discriminate|].
  destruct (Ascii.eqb c sep); [discriminate|].
  destruct (Split s sep); discriminate.
Qed.

(** A string without the separator is its own and only piece. *)
Lemma Split_absent (s : string) (sep : ascii) :
  contains_byte sep s = false -> Split s sep = [s].
Proof.
  induction s as [|c s IH]; simpl; [reflexivity|].
  intros H. apply orb_false_iff in H as [Hc Hs].
  rewrite Hc, (IH Hs). reflexivity.
Qed.

(** No piece holds the separator. *)
Lemma Split_pieces (s : string) (sep : ascii) :
  Forall (fun piece => contains_byte sep piece = false) (Split s sep).
Proof.
  induction s as [|c s IH]; simpl.
  - constructor; [reflexivity | constructor].
  - destruct (Ascii.eqb c sep) eqn:E.
    + constructor; [reflexivity | assumption].
    + destruct (Split s sep) as [|piece pieces].
      * constructor; [simpl; now rewrite E | constructor].
      * inversion IH; subst. constructor; [|assumption].
        simpl. rewrite E. assumption.
Qed.

Lemma ends_in_newline_cons (c : ascii) (s : string) :
  ends_in_newline (String c s)
  = match s with
    | EmptyString => Ascii.eqb c LF
    | _ => ends_in_newline s
    end.
Proof. destruct s; reflexivity. Qed.

(** The flag that the loop of [Inline] leaves behind is decided by the
    content alone, once the content is not empty. *)
Lemma flag_after_Split (s : string) (later flag : bool) :
  flag_after later (Split s LF) flag
  = match s with
    | EmptyString => later || flag
    | _ => ends_in_newline s
    end.
Proof.
  revert later flag. induction s as [|c s IH]; intros later flag.
  - reflexivity.
  - rewrite ends_in_newline_cons. simpl Split.
    destruct (Ascii.eqb c LF) eqn:E.
    + simpl flag_after. rewrite IH. destruct s; reflexivity.
    + specialize (IH false false).
      destruct (Split s LF) as [|piece pieces] eqn:ES.
      * now apply Split_not_nil in ES.
      * simpl flag_after in *.
        destruct piece; simpl in IH; rewrite IH; destruct s; reflexivity.
Qed.

(** ** [strings.Repeat] *)

(** No copies are needed, and [strings.Repeat] returns without
    allocating, for a count of 0 and for an empty string. *)
Lemma Repeat_no_copies (s : string) (count : Z) :
  count = 0 \/ (s = EmptyString /\ 0 <= count) ->
  Repeat s count = Ok EmptyString.
Proof.
  unfold Repeat. intros [-> | [-> H0]]; [reflexivity|].
  destruct (count =? 0); [reflexivity|].
  destruct (count =? 1); [reflexivity|].
  destruct (count <? 0) eqn:En; [apply Z.ltb_lt in En; lia|].
  reflexivity.
Qed.

Lemma Repeat_negative (s : string) (count : Z) :
  count < 0 -> Repeat s count = Panics "strings: negative Repeat count".
Proof.
  intros Hc. unfold Repeat.
  destruct (count =? 0) eqn:E0; [apply Z.eqb_eq in E0; lia|].
  destruct (count =? 1) eqn:E1; [apply Z.eqb_eq in E1; lia|].
  destruct (count <? 0) eqn:En; [reflexivity | apply Z.ltb_ge in En; lia].
Qed.

Lemma repeat_string_empty (n : nat) :
  repeat_string EmptyString n = EmptyString.
Proof. induction n as [|n IH]; [reflexivity | exact IH]. Qed.

(** When [strings.Repeat] returns, it returns the copies. *)
Lemma Repeat_Ok_inv (s : string) (count : Z) (copies : string) :
  Repeat s count = Ok copies -> copies = repeat_string s (Z.to_nat count).
Proof.
  unfold Repeat.
  destruct (count =? 0) eqn:E0.
  - apply Z.eqb_eq in E0. subst. now intros [= <-].
  - destruct (count =? 1) eqn:E1.
    + apply Z.eqb_eq in E1. subst. intros [= <-]. simpl.
      now rewrite append_nil_r.
    + destruct (count <? 0); [discriminate|].
      destruct (maxInt <? len s * count); [discriminate|].
      destruct (len s =? 0) eqn:El.
      * intros [= <-]. apply Z.eqb_eq in El.
        destruct s; [now rewrite repeat_string_empty | discriminate].
      * destruct (maxAlloc <? len s * count); [discriminate|].
        now intros [= <-].
Qed.

(** [strings.Repeat] returns for counts that are not negative only, and
    never with more than [maxAlloc] bytes of copies to allocate. *)
Lemma Repeat_Ok_bounds (s : string) (count : Z) (copies : string) :
  Repeat s count = Ok copies ->
  0 <= count /\ (count <= 1 \/ len s * count <= maxAlloc).
Proof.
  unfold Repeat.
  destruct (count =? 0) eqn:E0; [apply Z.eqb_eq in E0; lia|].
  destruct (count =? 1) eqn:E1; [apply Z.eqb_eq in E1; lia|].
  destruct (count <? 0) eqn:En; [discriminate|]. apply Z.ltb_ge in En.
  destruct (maxInt <? len s * count); [discriminate|].
  destruct (len s =? 0) eqn:El.
  - apply Z.eqb_eq in El. rewrite El. intros _. split; [lia|]. right.
    unfold maxAlloc. simpl. lia.
  - destruct (maxAlloc <? len s * count) eqn:Ea; [discriminate|].
    apply Z.ltb_ge in Ea. intros _. split; [lia | now right].
Qed.


(** Above the allocation limit [strings.Repeat] panics in the runtime. *)
Lemma Repeat_above_maxAlloc (s : string) (count : Z) :
  maxAlloc < len s * count <= maxInt ->
  1 < count ->
  Repeat s count = Panics "makeslice: len out of range".
Proof.
  intros [Ha Hm] Hc. unfold Repeat.
  destruct (count =? 0) eqn:E0; [apply Z.eqb_eq in E0; lia|].
  destruct (count =? 1) eqn:E1; [apply Z.eqb_eq in E1; lia|].
  destruct (count <? 0) eqn:En; [apply Z.ltb_lt in En; lia|].
  destruct (maxInt <? len s * count) eqn:Eo; [apply Z.ltb_lt in Eo; lia|].
  destruct (len s =? 0) eqn:El.
  - apply Z.eqb_eq in El. rewrite El in Ha. unfold maxAlloc in Ha.
    simpl in Ha. lia.
  - destruct (maxAlloc <? len s * count) eqn:Ea;
      [reflexivity | apply Z.ltb_ge in Ea; lia].
Qed.

(** ** The loop of [Inline] *)

Section InlineLoop.

Variable unit : string.
Variable level : Z.
Variable prefix : string.
Hypothesis prefix_built : Repeat unit level = Ok prefix.

Lemma Inline_subline_first (s buffer : string) (flag : bool) :
  Inline_subline 0 s (mkGenerator buffer level unit flag)
  = Done (mkGenerator (buffer ++ subline_text prefix flag s) level unit
            (match s with EmptyString => flag | _ => false end)).
Proof.
  unfold Inline_subline. destruct s as [|c s]; simpl.
  - now rewrite append_nil_r.
  - destruct flag; simpl.
    + rewrite prefix_built. simpl. unfold WriteString, set_atStartOfLine.
      simpl. now rewrite append_assoc.
    + reflexivity.
Qed.

Lemma Inline_subline_later (k : nat) (s buffer : string) (flag : bool) :
  Inline_subline (S k) s (mkGenerator buffer level unit flag)
  = Done (mkGenerator (buffer ++ nl ++ subline_text prefix true s)
            level unit
            (match s with EmptyString => true | _ => false end)).
Proof.
  unfold Inline_subline. destruct s as [|c s]; simpl.
  - reflexivity.
  - rewrite prefix_built. simpl. unfold WriteString, set_atStartOfLine.
    simpl. now rewrite !append_assoc.
Qed.

Lemma Inline_range_later (rest : list string) :
  forall (k : nat) (buffer : string) (flag : bool),
    Inline_range (S k) rest (mkGenerator buffer level unit flag)
    = Done (mkGenerator (buffer ++ later_sublines_text prefix rest)
              level unit (flag_after true rest flag)).
Proof.
  induction rest as [|s rest IH]; intros k buffer flag.
  - simpl. now rewrite append_nil_r.
  - simpl Inline_range. rewrite Inline_subline_later. simpl and_then.
    rewrite IH. simpl. rewrite !append_assoc.
    destruct s; reflexivity.
Qed.

Lemma Inline_range_all (first : string) (rest : list string)
      (buffer : string) (flag : bool) :
  Inline_range 0 (first :: rest) (mkGenerator buffer level unit flag)
  = Done (mkGenerator
            (buffer ++ subline_text prefix flag first
                    ++ later_sublines_text prefix rest)
            level unit (flag_after false (first :: rest) flag)).
Proof.
  simpl Inline_range. rewrite Inline_subline_first. simpl and_then.
  rewrite Inline_range_later. now rewrite append_assoc.
Qed.

End InlineLoop.

(** When [strings.Repeat] returns the prefix, [Inline] returns and has
    done what its contract says. *)
Lemma Inline_returns (content : string) (g : Generator) (prefix : string) :
  Repeat (indentString g) (indentLevel g) = Ok prefix ->
  Inline content g = Done (Inline_spec content g).
Proof.
  intros Hg. pose proof (Repeat_Ok_inv _ _ _ Hg) as ->.
  destruct content as [|c content]; [reflexivity|].
  unfold Inline, Inline_spec, Inline_text.
  change (String.eqb (String c content) EmptyString) with false. cbv iota.
  destruct g as [buffer level unit flag].
  unfold indentation in *.
  cbn [sb indentLevel indentString atStartOfLine] in *.
  destruct (Split (String c content) LF) as [|first rest] eqn:ES.
  - now apply Split_not_nil in ES.
  - rewrite (Inline_range_all unit level _ Hg). cbn [and_then].
    rewrite <- ES, flag_after_Split, HasSuffix_nl.
    destruct (ends_in_newline (String c content)); reflexivity.
Qed.

(** A turn of the loop that returns has written what the contract says,
    on any generator. *)
Lemma Inline_subline_done (idx : nat) (s : string) (g g1 : Generator) :
  Inline_subline idx s g = Done g1 ->
  g1 = mkGenerator
         (sb g ++ (if (0 <? idx)%nat then nl else EmptyString)
               ++ subline_text (indentation g)
                    ((0 <? idx)%nat || atStartOfLine g) s)
         (indentLevel g) (indentString g)
         (match s with
          | EmptyString => (0 <? idx)%nat || atStartOfLine g
          | _ => false
          end).
Proof.
  unfold Inline_subline, indentation.
  destruct g as [buffer level unit flag].
  destruct (0 <? idx)%nat, s as [|c s];
    cbn [String.eqb negb set_atStartOfLine WriteString sb atStartOfLine
         indentLevel indentString orb subline_text].
  - intros [= <-]. now rewrite append_nil_r.
  - destruct (Repeat unit level) as [copies|msg] eqn:ER;
      cbn [and_then]; [|discriminate].
    apply Repeat_Ok_inv in ER. subst copies. intros [= <-].
    unfold set_atStartOfLine, WriteString.
    cbn [sb atStartOfLine indentLevel indentString].
    now rewrite !append_assoc.
  - intros [= <-]. now rewrite !append_nil_r.
  - destruct flag.
    + destruct (Repeat unit level) as [copies|msg] eqn:ER;
        cbn [and_then]; [|discriminate].
      apply Repeat_Ok_inv in ER. subst copies. intros [= <-].
      unfold set_atStartOfLine, WriteString.
      cbn [sb atStartOfLine indentLevel indentString].
      now rewrite !append_assoc.
    + cbn [and_then]. intros [= <-]. reflexivity.
Qed.

Lemma Inline_range_done (sublines : list string) :
  forall (idx : nat) (g g' : Generator),
    Inline_range idx sublines g = Done g' ->
    g' = mkGenerator
           (sb g ++ range_text (indentation g) (0 <? idx)%nat sublines
                      (atStartOfLine g))
           (indentLevel g) (indentString g)
           (flag_after (0 <? idx)%nat sublines (atStartOfLine g)).
Proof.
  induction sublines as [|s rest IH]; intros idx g g' E.
  - injection E as <-. destruct g. simpl. now rewrite append_nil_r.
  - cbn [Inline_range] in E.
    destruct (Inline_subline idx s g) as [g1|msg g1] eqn:E1;
      cbn [and_then] in E; [|discriminate].
    apply Inline_subline_done in E1. apply IH in E. subst g1.
    unfold indentation in *.
    cbn [sb atStartOfLine indentLevel indentString] in E.
    rewrite E. cbn [range_text flag_after Nat.ltb Nat.leb].
    now rewrite !append_assoc.
Qed.

Lemma range_text_later (prefix : string) (rest : list string) :
  forall flag : bool,
    range_text prefix true rest flag = later_sublines_text prefix rest.
Proof.
  induction rest as [|s rest IH]; intros flag; [reflexivity|].
  cbn [range_text later_sublines_text orb]. now rewrite IH.
Qed.

(** Whenever [Inline] returns, on any generator, it has done what its
    contract says. *)
Lemma Inline_done (content : string) (g g' : Generator) :
  Inline content g = Done g' -> g' = Inline_spec content g.
Proof.
  unfold Inline, Inline_spec, Inline_text.
  destruct content as [|c content]; [now intros [= <-]|].
  change (String.eqb (String c content) EmptyString) with false. cbv iota.
  destruct (Inline_range 0 (Split (String c content) LF) g) as [g1|msg g1]
    eqn:E; cbn [and_then]; [|discriminate].
  apply Inline_range_done in E. rewrite flag_after_Split in E.
  rewrite HasSuffix_nl. intros [= <-]. subst g1.
  destruct (Split (String c content) LF) as [|first rest] eqn:ES.
  - now apply Split_not_nil in ES.
  - cbn [range_text Nat.ltb Nat.leb orb]. rewrite range_text_later.
    cbn [append].
    destruct (ends_in_newline (String c content)); reflexivity.
Qed.

Lemma Line_returns (content : string) (g : Generator) (prefix : string) :
  Repeat (indentString g) (indentLevel g) = Ok prefix ->
  Line content g = Done (Break (Inline_spec content g)).
Proof. intros Hg. unfold Line. now rewrite (Inline_returns _ _ _ Hg). Qed.

(** ** Breaks written by [Inline] *)







(** ** The claims on single operations *)

Lemma Raw_verbatim_sb (content : string) (g : Generator) :
  sb (Raw content g) = sb g ++ content.
Proof.
  unfold Raw. destruct content as [|c content].
  - simpl. now rewrite append_nil_r.
  - change (String.eqb (String c content) EmptyString) with false.
    cbv iota zeta. destruct (HasSuffix (String c content) nl); reflexivity.
Qed.

(** C5. The raw write [Raw] appends the content as it is, whatever the
    depth, the unit and the cursor: no prefix, no cutting at breaks.
    Depth and unit are kept.  For content that is not empty the cursor
    is afterwards at the start of a line exactly when the last byte of the
    content is a break; empty content changes nothing. *)
Theorem Raw_verbatim (content : string) (g : Generator) :
  sb (Raw content g) = sb g ++ content
  /\ indentLevel (Raw content g) = indentLevel g
  /\ indentString (Raw content g) = indentString g
  /\ atStartOfLine (Raw content g)
     = match content with
       | EmptyString => atStartOfLine g
       | _ => ends_in_newline content
       end
  /\ Raw EmptyString g = g.
Proof.
  unfold Raw. destruct content as [|c content].
  - simpl. now rewrite append_nil_r.
  - change (String.eqb (String c content) EmptyString) with false.
    cbv iota zeta. rewrite HasSuffix_nl.
    destruct (ends_in_newline (String c content)); simpl; auto.
Qed.

(** C7. Round trip: content without a break, written by [Inline] on a
    generator at depth 0, at the start of a line and with an empty buffer,
    is what [String] gives back. *)
Theorem Inline_roundtrip (content unit : string) :
  contains_byte LF content = false ->
  exists g,
    Inline content (mkGenerator EmptyString 0 unit true) = Done g
    /\ String_ g = content.
Proof.
  intros Hc. eexists. split.
  - apply (Inline_returns _ _ EmptyString). reflexivity.
  - unfold String_, Inline_spec.
    destruct content as [|c content]; [reflexivity|].
    cbn [sb atStartOfLine]. unfold Inline_text.
    rewrite (Split_absent _ _ Hc). unfold indentation. simpl.
    now rewrite append_nil_r.
Qed.

Lemma Inline_roundtrip_witness :
  contains_byte LF "console.log('hello')" = false
  /\ exists g,
      Inline "console.log('hello')" (mkGenerator EmptyString 0 "  " true)
      = Done g
      /\ String_ g = "console.log('hello')".
Proof.
  split; [reflexivity|].
  apply (Inline_roundtrip "console.log('hello')" "  "). reflexivity.
Defined.

(** C8. Each formatted variant is its base operation on the formatted
    string: [Linef] leaves the buffer and the cursor that [Line] leaves
    on [Sprintf(format, args...)], and so do [Inlinef] with [Inline] and
    [Rawf] with [Raw]. *)
Theorem formatted_variants_delegate
        (any : Type) (Sprintf : string -> list any -> string)
        (format : string) (args : list any) (g : Generator) :
  Linef Sprintf format args g = Line (Sprintf format args) g
  /\ Inlinef Sprintf format args g = Inline (Sprintf format args) g
  /\ Rawf Sprintf format args g = Raw (Sprintf format args) g.
Proof. repeat split. Qed.

Lemma repeat_space (n : nat) : repeat_string " " n = n_spaces n.
Proof. induction n as [|n IH]; simpl; [reflexivity | now rewrite IH]. Qed.

(** ** What a call leaves untouched *)

Lemma state_of_and_then (o : Outcome) (k : Generator -> Outcome) :
  state_of (o >>= k)
  = match o with
    | Done g => state_of (k g)
    | Panic _ g => g
    end.
Proof. destruct o; reflexivity. Qed.

Lemma Inline_subline_indent (idx : nat) (s : string) (g : Generator) :
  same_indent g (state_of (Inline_subline idx s g)).
Proof.
  unfold Inline_subline, same_indent.
  destruct (0 <? idx)%nat, s as [|c s]; simpl; auto;
    try (destruct (atStartOfLine g); simpl; auto);
    destruct (Repeat (indentString g) (indentLevel g)); simpl; auto.
Qed.

Lemma Inline_range_indent (sublines : list string) :
  forall (idx : nat) (g : Generator),
    same_indent g (state_of (Inline_range idx sublines g)).
Proof.
  induction sublines as [|s rest IH]; intros idx g; simpl.
  - split; reflexivity.
  - rewrite state_of_and_then.
    pose proof (Inline_subline_indent idx s g) as [Hl Hu].
    destruct (Inline_subline idx s g) as [g1|msg g1]; simpl in Hl, Hu.
    + destruct (IH (S idx) g1) as [Hl' Hu']. split; congruence.
    + split; assumption.
Qed.

Lemma Inline_indent (content : string) (g : Generator) :
  same_indent g (state_of (Inline content g)).
Proof.
  unfold Inline. destruct (String.eqb content EmptyString).
  - split; reflexivity.
  - rewrite state_of_and_then.
    pose proof (Inline_range_indent (Split content LF) 0 g) as [Hl Hu].
    destruct (Inline_range 0 (Split content LF) g) as [g1|msg g1];
      simpl in Hl, Hu.
    + destruct (HasSuffix content nl); split; assumption.
    + split; assumption.
Qed.

Lemma Line_indent (content : string) (g : Generator) :
  same_indent g (state_of (Line content g)).
Proof.
  unfold Line. rewrite state_of_and_then.
  pose proof (Inline_indent content g) as H.
  destruct (Inline content g); exact H.
Qed.

Lemma Raw_indent (content : string) (g : Generator) :
  same_indent g (Raw content g).
Proof.
  unfold Raw, same_indent. destruct (String.eqb content EmptyString); auto.
  simpl. destruct (HasSuffix content nl); auto.
Qed.

(** ** Depth *)

Lemma wrap_small (z : Z) : is_int z -> wrap z = z.
Proof.
  unfold is_int, wrap, minInt, maxInt, intSize. simpl. intros H.
  rewrite Z.mod_small; lia.
Qed.

Lemma maxInt_value : maxInt = 9223372036854775807.
Proof. reflexivity. Qed.

Lemma minInt_value : minInt = -9223372036854775808.
Proof. reflexivity. Qed.

Lemma maxAlloc_value : maxAlloc = 281474976710656.
Proof. reflexivity. Qed.

Lemma Indent_level (g : Generator) :
  0 <= indentLevel g < maxInt ->
  indentLevel (Indent g) = indentLevel g + 1.
Proof.
  intros H. unfold Indent. simpl. apply wrap_small.
  unfold is_int. rewrite minInt_value. lia.
Qed.

Lemma Dedent_level (g : Generator) :
  0 <= indentLevel g <= maxInt ->
  indentLevel (Dedent g) = Z.max 0 (indentLevel g - 1).
Proof.
  intros H. unfold Dedent.
  destruct (0 <? indentLevel g) eqn:E.
  - apply Z.ltb_lt in E. simpl. rewrite wrap_small; [lia|].
    unfold is_int. rewrite minInt_value. lia.
  - apply Z.ltb_ge in E. lia.
Qed.

Lemma indents_nonneg (s : Script) : 0 <= indents s.
Proof. induction s; cbn [indents]; lia. Qed.

(** A script started at a depth that is not negative, and without room to
    reach the largest [int], ends at a depth between 0 and the start depth
    plus its [Indent]s. *)
Lemma depth_bounds (s : Script) :
  forall g : Generator,
    0 <= indentLevel g ->
    indentLevel g + indents s <= maxInt ->
    0 <= indentLevel (state_of (run s g)) <= indentLevel g + indents s.
Proof.
  induction s as [|s1 IH1 s2 IH2| | | | | | | | |body IH| |body IH];
    intros g H0 Hmax; cbn [indents run state_of] in *.
  - lia.
  - pose proof (indents_nonneg s1). pose proof (indents_nonneg s2).
    rewrite state_of_and_then.
    specialize (IH1 g H0 ltac:(lia)).
    destruct (run s1 g) as [g1|msg g1]; simpl in IH1.
    + specialize (IH2 g1 ltac:(lia) ltac:(lia)). lia.
    + lia.
  - destruct (Inline_indent content g) as [-> _]. lia.
  - destruct (Line_indent content g) as [-> _]. lia.
  - destruct (Raw_indent content g) as [-> _]. lia.
  - change (indentLevel (Break g)) with (indentLevel g). lia.
  - rewrite maxInt_value in *. rewrite Indent_level; rewrite ?maxInt_value; lia.
  - rewrite maxInt_value in *. rewrite Dedent_level; rewrite ?maxInt_value; lia.
  - unfold WithSpaces.
    destruct (Repeat " " spaces);
      cbn [state_of set_indentString indentLevel]; lia.
  - change (indentLevel (WithTabs g)) with (indentLevel g). lia.
  - pose proof (indents_nonneg body).
    unfold Block. rewrite state_of_and_then.
    assert (HI : indentLevel (Indent g) = indentLevel g + 1)
      by (apply Indent_level; lia).
    specialize (IH (Indent g) ltac:(lia) ltac:(lia)).
    destruct (run body (Indent g)) as [g1|msg g1];
      cbn [state_of] in IH |- *.
    + rewrite Dedent_level; lia.
    + lia.
  - lia.
  - apply IH; assumption.
Qed.

Lemma indent_times_succ (n : N) :
  indent_times (N.succ n) = SSeq SIndent (indent_times n).
Proof. unfold indent_times. apply N.iter_succ. Qed.

(** [n] calls of [Indent] that stay below the largest [int] raise the
    depth by [n]. *)
Lemma indent_times_level (n : N) :
  forall g : Generator,
    0 <= indentLevel g ->
    indentLevel g + Z.of_N n <= maxInt ->
    exists g',
      run (indent_times n) g = Done g'
      /\ indentLevel g' = indentLevel g + Z.of_N n.
Proof.
  induction n as [|n IH] using N.peano_ind; intros g H0 Hmax.
  - exists g. split; [reflexivity | simpl; lia].
  - rewrite indent_times_succ. cbn [run and_then].
    rewrite N2Z.inj_succ in *.
    assert (HI : indentLevel (Indent g) = indentLevel g + 1)
      by (apply Indent_level; lia).
    destruct (IH (Indent g) ltac:(lia) ltac:(lia)) as [g' [E L]].
    exists g'. split; [exact E | lia].
Qed.

(** C4, as the code has it.  The depth never becomes negative as long as
    it is not raised past the largest [int]: a script started at a depth
    [d >= 0] that holds at most [maxInt - d] calls of [Indent] and [Block]
    ends, returning or panicking, at a depth [>= 0]; and [Dedent] at depth
    0 changes nothing. *)
Theorem depth_never_negative (s : Script) (g : Generator) :
  0 <= indentLevel g ->
  indentLevel g + indents s <= maxInt ->
  0 <= indentLevel (state_of (run s g))
  /\ (indentLevel g = 0 -> Dedent g = g).
Proof.
  intros H0 Hmax. split.
  - now apply depth_bounds.
  - intros E. unfold Dedent. now rewrite E.
Qed.

Lemma depth_never_negative_witness :
  0 <= indentLevel New
  /\ indentLevel New + indents (SSeq SDedent (SBlock (SSeq SDedent SDedent)))
     <= maxInt
  /\ 0 <= indentLevel
            (state_of (run (SSeq SDedent (SBlock (SSeq SDedent SDedent)))
                           New))
  /\ Dedent New = New.
Proof.
  assert (H0 : 0 <= indentLevel New) by (simpl; lia).
  assert (Hm : indentLevel New
               + indents (SSeq SDedent (SBlock (SSeq SDedent SDedent)))
               <= maxInt)
    by (vm_compute; discriminate).
  destruct (depth_never_negative _ New H0 Hm) as [Hd Hz].
  split; [exact H0|]. split; [exact Hm|]. split; [exact Hd|].
  apply Hz. reflexivity.
Defined.

(** Once the depth is at the largest [int], one more [Indent] wraps it
    around to the smallest one. *)
Lemma indent_times_overflow (n : N) :
  Z.of_N n = maxInt ->
  exists g,
    run (SSeq (indent_times n) SIndent) New = Done g
    /\ indentLevel g = minInt.
Proof.
  intros Hn.
  destruct (indent_times_level n New) as [g [E L]].
  - simpl. lia.
  - rewrite Hn. simpl. lia.
  - exists (Indent g). split.
    + cbn [run]. rewrite E. reflexivity.
    + unfold Indent. cbn [indentLevel set_indentLevel]. rewrite L, Hn.
      reflexivity.
Qed.

(** C4, as the claim has it, fails.  [Indent] at the largest [int] wraps
    around to the smallest one, and 2^63 calls of [Indent] on a new
    generator get there. *)
Lemma depth_negative_after_overflow :
  indentLevel (Indent (mkGenerator EmptyString maxInt "  " true)) = minInt
  /\ minInt < 0
  /\ exists g,
      run (SSeq (indent_times (2 ^ 63 - 1)) SIndent) New = Done g
      /\ indentLevel g = minInt.
Proof.
  split; [reflexivity|]. split; [reflexivity|].
  apply indent_times_overflow. reflexivity.
Qed.

(** ** The cursor and the buffer *)

Lemma line_start_of_append (a b : string) :
  line_start_of (a ++ b)
  = match b with
    | EmptyString => line_start_of a
    | _ => ends_in_newline b
    end.
Proof.
  unfold line_start_of, ends_in_newline. rewrite last_byte_append.
  destruct b as [|c b]; [reflexivity|].
  destruct (last_byte (String c b)) eqn:E; [reflexivity|].
  now apply last_byte_some in E.
Qed.

Lemma line_start_of_iff (buffer : string) :
  line_start_of buffer = true
  <-> buffer = EmptyString \/ ends_in_newline buffer = true.
Proof.
  unfold line_start_of, ends_in_newline.
  destruct (last_byte buffer) eqn:E.
  - split; [now right | intros [->|H]; [discriminate | exact H]].
  - apply last_byte_none in E. split; [now left | reflexivity].
Qed.

(** A piece without a break does not end with one. *)
Lemma ends_in_newline_absent (s : string) :
  contains_byte LF s = false -> ends_in_newline s = false.
Proof.
  induction s as [|c s IH]; [reflexivity|].
  simpl contains_byte. intros H. apply orb_false_iff in H as [Hc Hs].
  rewrite ends_in_newline_cons. destruct s; [exact Hc | now apply IH].
Qed.

Lemma Inline_subline_tracks (idx : nat) (s : string) (g : Generator) :
  contains_byte LF s = false ->
  cursor_tracks_buffer g ->
  cursor_tracks_buffer (state_of (Inline_subline idx s g)).
Proof.
  intros Hs Hg. unfold cursor_tracks_buffer, Inline_subline in *.
  pose proof (ends_in_newline_absent s Hs) as He.
  destruct g as [buffer level unit flag].
  cbn [sb atStartOfLine] in Hg.
  destruct (0 <? idx)%nat, s as [|c s];
    cbn [String.eqb negb set_atStartOfLine WriteString sb atStartOfLine
         indentLevel indentString state_of];
    try (rewrite line_start_of_append; reflexivity);
    try assumption.
  - destruct (Repeat unit level);
      cbn [and_then state_of set_atStartOfLine WriteString sb atStartOfLine
           indentLevel indentString].
    + rewrite line_start_of_append. now rewrite He.
    + rewrite line_start_of_append. reflexivity.
  - destruct flag.
    + destruct (Repeat unit level);
        cbn [and_then state_of set_atStartOfLine WriteString sb
             atStartOfLine indentLevel indentString].
      * rewrite line_start_of_append. now rewrite He.
      * assumption.
    + cbn [and_then state_of set_atStartOfLine WriteString sb
           atStartOfLine indentLevel indentString].
      rewrite line_start_of_append. now rewrite He.
Qed.

Lemma Inline_range_tracks (sublines : list string) :
  Forall (fun piece => contains_byte LF piece = false) sublines ->
  forall (idx : nat) (g : Generator),
    cursor_tracks_buffer g ->
    cursor_tracks_buffer (state_of (Inline_range idx sublines g)).
Proof.
  induction 1 as [|s rest Hs Hrest IH]; intros idx g Hg; [exact Hg|].
  cbn [Inline_range]. rewrite state_of_and_then.
  pose proof (Inline_subline_tracks idx s g Hs Hg) as H1.
  destruct (Inline_subline idx s g) as [g1|msg g1]; cbn [state_of] in H1.
  - now apply IH.
  - exact H1.
Qed.

Lemma Inline_subline_flag (idx : nat) (s : string) (g g1 : Generator) :
  Inline_subline idx s g = Done g1 ->
  atStartOfLine g1
  = match s with
    | EmptyString => (0 <? idx)%nat || atStartOfLine g
    | _ => false
    end.
Proof.
  unfold Inline_subline.
  destruct (0 <? idx)%nat, s as [|c s];
    cbn [String.eqb negb set_atStartOfLine WriteString sb atStartOfLine
         indentLevel indentString orb].
  - intros [= <-]. reflexivity.
  - destruct (Repeat (indentString g) (indentLevel g));
      cbn [and_then]; [intros [= <-]; reflexivity | discriminate].
  - intros [= <-]. reflexivity.
  - destruct (atStartOfLine g);
      [destruct (Repeat (indentString g) (indentLevel g))|];
      cbn [and_then]; try discriminate; intros [= <-]; reflexivity.
Qed.

Lemma Inline_range_flag (sublines : list string) :
  forall (idx : nat) (g g' : Generator),
    Inline_range idx sublines g = Done g' ->
    atStartOfLine g' = flag_after (0 <? idx)%nat sublines (atStartOfLine g).
Proof.
  induction sublines as [|s rest IH]; intros idx g g' E.
  - injection E as <-. reflexivity.
  - cbn [Inline_range] in E.
    destruct (Inline_subline idx s g) as [g1|msg g1] eqn:E1;
      cbn [and_then] in E; [|discriminate].
    apply Inline_subline_flag in E1. apply IH in E.
    rewrite E, E1. reflexivity.
Qed.

Lemma Inline_tracks (content : string) (g : Generator) :
  cursor_tracks_buffer g ->
  cursor_tracks_buffer (state_of (Inline content g)).
Proof.
  intros Hg. unfold Inline.
  destruct content as [|c content]; [exact Hg|].
  change (String.eqb (String c content) EmptyString) with false. cbv iota.
  rewrite state_of_and_then.
  pose proof (Inline_range_tracks _ (Split_pieces (String c content) LF)
                0 g Hg) as H1.
  destruct (Inline_range 0 (Split (String c content) LF) g) as [g1|msg g1]
    eqn:E; cbn [state_of] in H1 |- *; [|exact H1].
  apply Inline_range_flag in E. rewrite flag_after_Split in E.
  rewrite HasSuffix_nl.
  destruct (ends_in_newline (String c content)); [|exact H1].
  unfold cursor_tracks_buffer in *. cbn [set_atStartOfLine sb atStartOfLine].
  now rewrite <- H1, E.
Qed.

Lemma Break_tracks (g : Generator) : cursor_tracks_buffer (Break g).
Proof.
  unfold cursor_tracks_buffer, Break. simpl.
  now rewrite line_start_of_append.
Qed.

Lemma Raw_tracks (content : string) (g : Generator) :
  cursor_tracks_buffer g -> cursor_tracks_buffer (Raw content g).
Proof.
  intros Hg. unfold Raw. destruct content as [|c content]; [exact Hg|].
  change (String.eqb (String c content) EmptyString) with false.
  cbv iota zeta. rewrite HasSuffix_nl. unfold cursor_tracks_buffer.
  destruct (ends_in_newline (String c content)) eqn:E;
    cbn [set_atStartOfLine WriteString sb atStartOfLine];
    now rewrite line_start_of_append, E.
Qed.

(** Every script keeps the cursor flag in step with the buffer, whether
    it returns or panics. *)
Lemma run_tracks (s : Script) :
  forall g : Generator,
    cursor_tracks_buffer g -> cursor_tracks_buffer (state_of (run s g)).
Proof.
  induction s as [|s1 IH1 s2 IH2| | | | | | | | |body IH| |body IH];
    intros g Hg; cbn [run state_of].
  - exact Hg.
  - rewrite state_of_and_then. specialize (IH1 g Hg).
    destruct (run s1 g); [now apply IH2 | exact IH1].
  - now apply Inline_tracks.
  - unfold Line. rewrite state_of_and_then.
    pose proof (Inline_tracks content g Hg) as H1.
    destruct (Inline content g); [apply Break_tracks | exact H1].
  - now apply Raw_tracks.
  - apply Break_tracks.
  - exact Hg.
  - unfold Dedent. destruct (0 <? indentLevel g); exact Hg.
  - unfold WithSpaces. destruct (Repeat " " spaces); exact Hg.
  - exact Hg.
  - unfold Block. rewrite state_of_and_then.
    specialize (IH (Indent g) Hg).
    destruct (run body (Indent g)) as [g1|msg g1]; cbn [state_of] in *.
    + unfold Dedent. destruct (0 <? indentLevel g1); exact IH.
    + exact IH.
  - exact Hg.
  - now apply IH.
Qed.

(** C9. After every script run on a new generator -- [Inline], [Line],
    [Raw], [Break], [Indent], [Dedent], [WithSpaces], [WithTabs] and
    [Block] in any sequence and nesting, returning or panicking, with
    panics recovered or not -- the cursor is at the start of a line if and
    only if the buffer is empty or ends with a break; and every such
    script keeps that relation between flag and buffer when started on
    any generator that has it. *)
Theorem cursor_flag_tracks_buffer (s : Script) :
  (atStartOfLine (state_of (run s New)) = true
   <-> sb (state_of (run s New)) = EmptyString
       \/ ends_in_newline (sb (state_of (run s New))) = true)
  /\ (forall g : Generator,
        cursor_tracks_buffer g ->
        cursor_tracks_buffer (state_of (run s g))).
Proof.
  split; [|apply run_tracks].
  assert (H : cursor_tracks_buffer (state_of (run s New)))
    by (apply run_tracks; reflexivity).
  unfold cursor_tracks_buffer in H. rewrite H. apply line_start_of_iff.
Qed.

Lemma cursor_flag_tracks_buffer_witness :
  cursor_tracks_buffer (mkGenerator "x" 2 "  " false)
  /\ cursor_tracks_buffer
       (state_of (run (SSeq (SInline ("y" ++ nl)) (SBlock (SRaw "z")))
                      (mkGenerator "x" 2 "  " false))).
Proof.
  assert (H : cursor_tracks_buffer (mkGenerator "x" 2 "  " false))
    by reflexivity.
  split; [exact H|].
  apply (cursor_flag_tracks_buffer
           (SSeq (SInline ("y" ++ nl)) (SBlock (SRaw "z")))).
  exact H.
Defined.

(** ** [Block] and panics *)

(** [Block] lowers the depth again when the callback returns. *)
Lemma Block_returns (fn : Generator -> Outcome) (g g' : Generator) :
  fn (Indent g) = Done g' -> Block fn g = Done (Dedent g').
Proof. intros E. unfold Block. now rewrite E. Qed.

(** When the callback panics, [Block] passes the panic on with the
    generator as the callback left it: [Dedent] is not reached. *)
Lemma Block_panics (fn : Generator -> Outcome) (g g' : Generator)
      (msg : string) :
  fn (Indent g) = Panic msg g' -> Block fn g = Panic msg g'.
Proof. intros E. unfold Block. now rewrite E. Qed.

(** C1, on the code: a callback that panics leaves the depth raised.
    [Block] calls [Dedent] after [fn] returns and not otherwise, so the
    panic reaches the caller with the depth still at 1, and a caller
    that recovers writes its next line one level too deep. *)
Theorem Block_panic_skips_Dedent :
  Block (fun g => Panic "boom" g) New
  = Panic "boom" (mkGenerator EmptyString 1 "  " true)
  /\ run (SSeq (SRecover (SBlock (SPanic "boom"))) (SLine "x")) New
     = Done (mkGenerator ("  x" ++ nl) 1 "  " true).
Proof. split; reflexivity. Qed.

(** ** Formatting mismatches *)

(** C3, as the claim has it, fails.  [%d] given a string is a mismatch;
    [fmt.Sprintf] answers with the text [%!d(string=x)], and [Linef]
    writes that text as a line and returns. *)
Lemma Linef_writes_mismatch :
  Fmt.doPrintf "%d" [Fmt.AString "x"] = Some "%!d(string=x)"
  /\ Linef Fmt.Sprintf "%d" [Fmt.AString "x"] New
     = Done (mkGenerator ("%!d(string=x)" ++ nl) 0 "  " true)
  /\ Fmt.doPrintf "%s and %s" [Fmt.AString "x"]
     = Some "x and %!s(MISSING)"
  /\ sb (Rawf Fmt.Sprintf "%s and %s" [Fmt.AString "x"] New)
     = "x and %!s(MISSING)".
Proof. repeat split. Qed.

(** * Further properties of the operations *)

(** ** [Inline], byte by byte *)

Lemma and_then_assoc (o : Outcome) (f h : Generator -> Outcome) :
  (o >>= f) >>= h = o >>= (fun g => f g >>= h).
Proof. destruct o; reflexivity. Qed.

Lemma and_then_ext (o : Outcome) (f h : Generator -> Outcome) :
  (forall g, f g = h g) -> o >>= f = o >>= h.
Proof. intros E. destruct o; simpl; [apply E | reflexivity]. Qed.

Lemma and_then_Done (o : Outcome) : o >>= Done = o.
Proof. destruct o; reflexivity. Qed.

(** Past the first sub-line the index plays no part. *)
Lemma Inline_range_index (sublines : list string) :
  forall (k : nat) (g : Generator),
    Inline_range (S k) sublines g = Inline_range 1 sublines g.
Proof.
  induction sublines as [|s rest IH]; intros k g; [reflexivity|].
  cbn [Inline_range].
  change (Inline_subline (S k) s g) with (Inline_subline 1 s g).
  apply and_then_ext. intros g1. now rewrite (IH (S k)), (IH 1%nat).
Qed.

(** The break before a later sub-line is a [Break]. *)
Lemma Inline_range_after_break (s : string) (rest : list string)
      (g : Generator) :
  Inline_range 1 (s :: rest) g = Inline_range 0 (s :: rest) (Break g).
Proof.
  cbn [Inline_range].
  change (Inline_subline 1 s g) with (Inline_subline 0 s (Break g)).
  apply and_then_ext. intros g1. apply Inline_range_index.
Qed.

(** A sub-line is written as its first byte and then the rest of it. *)
Lemma Inline_subline_cons (idx : nat) (c : ascii) (piece : string)
      (g : Generator) :
  Inline_subline idx (String c piece) g
  = Inline_subline idx (String c EmptyString) g >>= Inline_subline 0 piece.
Proof.
  unfold Inline_subline. destruct g as [buffer level unit flag].
  assert (W : forall b l u f,
             mkGenerator (b ++ String c piece) l u f
             = mkGenerator ((b ++ String c EmptyString) ++ piece) l u f)
    by (intros; now rewrite append_assoc).
  destruct (0 <? idx)%nat, piece as [|d piece];
    cbn [String.eqb Ascii.eqb negb]; unfold set_atStartOfLine, WriteString;
    cbn [sb atStartOfLine indentLevel indentString];
    try destruct flag;
    try destruct (Repeat unit level);
    cbn [and_then String.eqb negb sb atStartOfLine indentLevel indentString];
    try reflexivity;
    try (now rewrite W).
Qed.

Lemma Inline_subline_byte (c : ascii) (g : Generator) :
  Ascii.eqb c LF = false ->
  Inline_subline 0 (String c EmptyString) g = write_byte c g.
Proof. intros E. unfold Inline_subline, write_byte. now rewrite E. Qed.

(** The loop of [Inline] over the sub-lines of a content writes the
    content byte by byte. *)
Lemma Inline_range_bytes (content : string) :
  forall g : Generator,
    Inline_range 0 (Split content LF) g = write_bytes content g.
Proof.
  induction content as [|c content IH]; intros g; [reflexivity|].
  cbn [Split write_bytes].
  destruct (Ascii.eqb c LF) eqn:E.
  - unfold write_byte. rewrite E. cbn [and_then]. rewrite <- IH.
    destruct (Split content LF) as [|piece pieces] eqn:ES;
      [now apply Split_not_nil in ES|].
    rewrite <- Inline_range_after_break. reflexivity.
  - rewrite <- (Inline_subline_byte c g E).
    destruct (Split content LF) as [|piece pieces] eqn:ES;
      [now apply Split_not_nil in ES|].
    cbn [Inline_range]. rewrite Inline_subline_cons, and_then_assoc.
    apply and_then_ext. intros g1. rewrite <- IH. reflexivity.
Qed.

Lemma set_atStartOfLine_same (g : Generator) :
  set_atStartOfLine (atStartOfLine g) g = g.
Proof. destruct g; reflexivity. Qed.

Lemma Inline_bytes (content : string) (g : Generator) :
  Inline content g = write_bytes content g.
Proof.
  unfold Inline. destruct content as [|c content]; [reflexivity|].
  change (String.eqb (String c content) EmptyString) with false. cbv iota.
  rewrite <- Inline_range_bytes.
  destruct (Inline_range 0 (Split (String c content) LF) g) as [g1|msg g1]
    eqn:E; [|reflexivity].
  apply Inline_range_flag in E. rewrite flag_after_Split in E.
  cbn [and_then]. rewrite HasSuffix_nl, <- E.
  destruct (atStartOfLine g1) eqn:F; [|reflexivity].
  rewrite <- F. now rewrite set_atStartOfLine_same.
Qed.

Lemma write_bytes_append (a b : string) :
  forall g : Generator,
    write_bytes (a ++ b) g = write_bytes a g >>= write_bytes b.
Proof.
  induction a as [|c a IH]; intros g; [reflexivity|].
  cbn [append write_bytes]. rewrite and_then_assoc.
  apply and_then_ext. intros g1. apply IH.
Qed.

(** X1. [Inline] treats its content one byte at a time: every break byte
    is written and puts the cursor at the start of a line, every other
    byte is written after the prefix when the cursor is at the start of a
    line and takes the cursor off it.  The outcome is the same on every
    content and every generator, panics included. *)
Theorem Inline_bytewise (content : string) (g : Generator) :
  Inline content g = write_bytes content g.
Proof. apply Inline_bytes. Qed.

(** X2. Writing a content in two pieces is writing it in one: [Inline] of
    a concatenation ends as [Inline] of the first part followed by
    [Inline] of the second, wherever the content is cut. *)
Theorem Inline_append (a b : string) (g : Generator) :
  Inline (a ++ b) g = Inline a g >>= Inline b.
Proof.
  rewrite !Inline_bytes, write_bytes_append.
  apply and_then_ext. intros g1. now rewrite Inline_bytes.
Qed.

(** X3. [Line] of a content is [Inline] of the content with a break
    added at its end. *)
Theorem Line_is_Inline_with_break (content : string) (g : Generator) :
  Line content g = Inline (content ++ nl) g.
Proof.
  unfold Line. rewrite !Inline_bytes, write_bytes_append.
  apply and_then_ext. intros g1. reflexivity.
Qed.

(** ** [Inline] without a prefix *)

Lemma subline_text_no_prefix (at_start : bool) (s : string) :
  subline_text EmptyString at_start s = s.
Proof. destruct s, at_start; reflexivity. Qed.

(** With an empty prefix the sub-lines and their breaks are the content
    again. *)
Lemma Inline_text_no_prefix (content : string) :
  forall at_start : bool,
    Inline_text EmptyString at_start content = content.
Proof.
  unfold Inline_text.
  induction content as [|c content IH]; intros at_start; [reflexivity|].
  cbn [Split]. specialize (IH true).
  destruct (Split content LF) as [|piece pieces] eqn:ES;
    [now apply Split_not_nil in ES|].
  rewrite subline_text_no_prefix in IH.
  destruct (Ascii.eqb c LF) eqn:E.
  - apply Ascii.eqb_eq in E. subst c.
    cbn [subline_text later_sublines_text append].
    rewrite subline_text_no_prefix, IH. reflexivity.
  - rewrite subline_text_no_prefix. cbn [append]. now rewrite IH.
Qed.

Lemma Raw_nonempty (c : ascii) (content : string) (g : Generator) :
  Raw (String c content) g
  = mkGenerator (sb g ++ String c content) (indentLevel g) (indentString g)
      (ends_in_newline (String c content)).
Proof.
  unfold Raw.
  change (String.eqb (String c content) EmptyString) with false.
  cbv iota zeta. rewrite HasSuffix_nl.
  destruct (ends_in_newline (String c content)); reflexivity.
Qed.

(** X4. At depth 0, and with an empty unit at any depth that is not
    negative, [Inline] is [Raw]: it returns, and has written the content
    as it is, breaks included. *)
Theorem Inline_is_Raw_without_prefix (content : string) (g : Generator) :
  indentLevel g = 0 \/ (indentString g = EmptyString /\ 0 <= indentLevel g) ->
  Inline content g = Done (Raw content g).
Proof.
  intros H.
  assert (HR : Repeat (indentString g) (indentLevel g) = Ok EmptyString).
  { apply Repeat_no_copies. destruct H as [H | [H1 H2]]; auto. }
  assert (Hp : indentation g = EmptyString).
  { unfold indentation. destruct H as [-> | [-> _]].
    - reflexivity.
    - apply repeat_string_empty. }
  rewrite (Inline_returns _ _ _ HR).
  destruct content as [|c content]; [reflexivity|].
  rewrite Raw_nonempty. unfold Inline_spec.
  now rewrite Hp, Inline_text_no_prefix.
Qed.

Lemma Inline_is_Raw_without_prefix_witness :
  (indentLevel (mkGenerator "x" 3 EmptyString false) = 0
   \/ (indentString (mkGenerator "x" 3 EmptyString false) = EmptyString
       /\ 0 <= indentLevel (mkGenerator "x" 3 EmptyString false)))
  /\ Inline ("a" ++ nl ++ "b") (mkGenerator "x" 3 EmptyString false)
     = Done (mkGenerator ("xa" ++ nl ++ "b") 3 EmptyString false).
Proof.
  assert (H : indentLevel (mkGenerator "x" 3 EmptyString false) = 0
              \/ (indentString (mkGenerator "x" 3 EmptyString false)
                  = EmptyString
                  /\ 0 <= indentLevel (mkGenerator "x" 3 EmptyString false)))
    by (right; split; [reflexivity | simpl; lia]).
  split; [exact H|].
  rewrite (Inline_is_Raw_without_prefix _ _ H). reflexivity.
Defined.

(** X5. [Raw] of a concatenation is [Raw] of the first part followed by
    [Raw] of the second. *)
Theorem Raw_append (a b : string) (g : Generator) :
  Raw (a ++ b) g = Raw b (Raw a g).
Proof.
  destruct a as [|x a]; [reflexivity|].
  destruct b as [|y b].
  - rewrite append_nil_r. reflexivity.
  - change (String x a ++ String y b) with (String x (a ++ String y b)).
    rewrite !Raw_nonempty. cbn [sb indentLevel indentString].
    change (String x (a ++ String y b)) with (String x a ++ String y b).
    rewrite append_assoc. f_equal.
    unfold ends_in_newline. rewrite last_byte_append.
    destruct (last_byte (String y b)) eqn:E; [reflexivity|].
    now apply last_byte_some in E.
Qed.

(** ** The buffer only grows *)

Lemma extends_refl (a : string) : extends a a.
Proof. exists EmptyString. now rewrite append_nil_r. Qed.

Lemma extends_trans (a b c : string) :
  extends a b -> extends b c -> extends a c.
Proof.
  intros [w1 ->] [w2 ->]. exists (w1 ++ w2). apply append_assoc.
Qed.

Lemma extends_append (a w : string) : extends a (a ++ w).
Proof. now exists w. Qed.

Lemma write_byte_extends (c : ascii) (g : Generator) :
  extends (sb g) (sb (state_of (write_byte c g))).
Proof.
  unfold write_byte. destruct (Ascii.eqb c LF).
  - apply extends_append.
  - destruct (atStartOfLine g).
    + destruct (Repeat (indentString g) (indentLevel g)); cbn.
      * rewrite append_assoc. apply extends_append.
      * apply extends_refl.
    + apply extends_append.
Qed.

Lemma write_bytes_extends (content : string) :
  forall g : Generator,
    extends (sb g) (sb (state_of (write_bytes content g))).
Proof.
  induction content as [|c content IH]; intros g; [apply extends_refl|].
  cbn [write_bytes]. rewrite state_of_and_then.
  pose proof (write_byte_extends c g) as H.
  destruct (write_byte c g) as [g1|msg g1]; cbn [state_of] in H.
  - eapply extends_trans; [exact H | apply IH].
  - exact H.
Qed.

Lemma run_extends (s : Script) :
  forall g : Generator, extends (sb g) (sb (state_of (run s g))).
Proof.
  induction s as [|s1 IH1 s2 IH2| | | | | | | | |body IH| |body IH];
    intros g; cbn [run state_of].
  - apply extends_refl.
  - rewrite state_of_and_then. specialize (IH1 g).
    destruct (run s1 g) as [g1|msg g1]; cbn [state_of] in IH1.
    + eapply extends_trans; [exact IH1 | apply IH2].
    + exact IH1.
  - rewrite Inline_bytes. apply write_bytes_extends.
  - unfold Line. rewrite state_of_and_then, Inline_bytes.
    pose proof (write_bytes_extends content g) as H.
    destruct (write_bytes content g) as [g1|msg g1]; cbn [state_of] in H.
    + eapply extends_trans; [exact H | apply extends_append].
    + exact H.
  - rewrite Raw_verbatim_sb. apply extends_append.
  - apply extends_append.
  - apply extends_refl.
  - unfold Dedent. destruct (0 <? indentLevel g); apply extends_refl.
  - unfold WithSpaces. destruct (Repeat " " spaces); apply extends_refl.
  - apply extends_refl.
  - unfold Block. rewrite state_of_and_then. specialize (IH (Indent g)).
    destruct (run body (Indent g)) as [g1|msg g1]; cbn [state_of] in IH.
    + unfold Dedent. destruct (0 <? indentLevel g1); exact IH.
    + exact IH.
  - apply extends_refl.
  - apply IH.
Qed.

(** X6. No operation takes back or changes text that is written: after
    any script, run on any generator and ending in a return or in a
    panic, the buffer is the buffer before with text added at its end. *)
Theorem buffer_only_grows (s : Script) (g : Generator) :
  exists written, sb (state_of (run s g)) = sb g ++ written.
Proof. apply run_extends. Qed.

(** ** Depth, up and down *)

Lemma Dedent_undoes_Indent_level (g : Generator) :
  0 <= indentLevel g < maxInt ->
  wrap (indentLevel g + 1 - 1) = indentLevel g.
Proof.
  intros H. rewrite wrap_small; [lia|].
  unfold is_int. rewrite minInt_value. lia.
Qed.

(** X7. [Dedent] undoes [Indent]: below the largest [int], and from a
    depth that is not negative, [Indent] followed by [Dedent] gives the
    generator back as it was. *)
Theorem Dedent_undoes_Indent (g : Generator) :
  0 <= indentLevel g < maxInt -> Dedent (Indent g) = g.
Proof.
  intros H. unfold Dedent. rewrite (Indent_level g H).
  replace (0 <? indentLevel g + 1) with true
    by (symmetry; apply Z.ltb_lt; lia).
  rewrite wrap_small by (unfold is_int; rewrite minInt_value; lia).
  destruct g as [buffer level unit flag]. unfold set_indentLevel, Indent.
  cbn [sb indentLevel indentString atStartOfLine]. f_equal. lia.
Qed.

Lemma Dedent_undoes_Indent_witness :
  0 <= indentLevel New < maxInt /\ Dedent (Indent New) = New.
Proof.
  assert (H : 0 <= indentLevel New < maxInt)
    by (vm_compute; split; [discriminate | reflexivity]).
  split; [exact H | exact (Dedent_undoes_Indent New H)].
Defined.

(** X8. [Dedent] saturates: [n] calls of [Dedent], from a depth [d] with
    [0 <= d <= maxInt], leave the depth at [max 0 (d - n)]; calls past
    depth 0 change nothing. *)
Theorem Dedent_saturates (n : N) (g : Generator) :
  0 <= indentLevel g <= maxInt ->
  indentLevel (N.iter n Dedent g) = Z.max 0 (indentLevel g - Z.of_N n).
Proof.
  intros H. induction n as [|n IH] using N.peano_ind.
  - simpl. lia.
  - rewrite N.iter_succ, N2Z.inj_succ, Dedent_level; lia.
Qed.

Lemma Dedent_saturates_witness :
  0 <= indentLevel (Indent (Indent New)) <= maxInt
  /\ indentLevel (N.iter 5 Dedent (Indent (Indent New))) = 0.
Proof.
  assert (H : 0 <= indentLevel (Indent (Indent New)) <= maxInt)
    by (vm_compute; split; discriminate).
  split; [exact H|].
  rewrite (Dedent_saturates 5 _ H). reflexivity.
Defined.

(** A script that changes the depth through [Block] only, when it
    returns, returns at the depth it started at. *)
Lemma block_structured_depth (s : Script) :
  block_structured s = true ->
  forall g g' : Generator,
    0 <= indentLevel g ->
    indentLevel g + indents s <= maxInt ->
    run s g = Done g' ->
    indentLevel g' = indentLevel g.
Proof.
  induction s as [|s1 IH1 s2 IH2| | | | | | | | |body IH| |body IH];
    intros Hs g g' H0 Hmax E; cbn [block_structured indents run] in *;
    try discriminate.
  - now injection E as <-.
  - apply andb_true_iff in Hs as [Hs1 Hs2].
    pose proof (indents_nonneg s1). pose proof (indents_nonneg s2).
    destruct (run s1 g) as [g1|msg g1] eqn:E1; cbn [and_then] in E;
      [|discriminate].
    specialize (IH1 Hs1 g g1 H0 ltac:(lia) E1).
    specialize (IH2 Hs2 g1 g' ltac:(lia) ltac:(lia) E). lia.
  - destruct (Inline_indent content g) as [L _]. now rewrite E in L.
  - destruct (Line_indent content g) as [L _]. now rewrite E in L.
  - injection E as <-. apply Raw_indent.
  - now injection E as <-.
  - unfold WithSpaces in E.
    destruct (Repeat " " spaces); [now injection E as <- | discriminate].
  - now injection E as <-.
  - pose proof (indents_nonneg body).
    unfold Block in E.
    destruct (run body (Indent g)) as [g1|msg g1] eqn:E1;
      cbn [and_then] in E; [|discriminate].
    injection E as <-.
    assert (HI : indentLevel (Indent g) = indentLevel g + 1)
      by (apply Indent_level; lia).
    specialize (IH Hs (Indent g) g1 ltac:(lia) ltac:(lia) E1).
    rewrite Dedent_level; lia.
Qed.

(** X9. [Block] is neutral on the depth.  A script that changes the
    depth through [Block] only -- writes, breaks, unit changes and
    [Block]s, nested at will, the callbacks being such scripts too --
    returns at the depth it started at, as long as the nesting stays below
    the largest [int]. *)
Theorem Block_restores_depth (s : Script) (g g' : Generator) :
  block_structured s = true ->
  0 <= indentLevel g ->
  indentLevel g + indents s <= maxInt ->
  run s g = Done g' ->
  indentLevel g' = indentLevel g.
Proof. intros Hs. now apply block_structured_depth. Qed.

Lemma Block_restores_depth_witness :
  block_structured
    (SSeq (SLine "a") (SBlock (SSeq (SLine "b") (SBlock (SLine "c")))))
  = true
  /\ 0 <= indentLevel New
  /\ indentLevel New
     + indents
         (SSeq (SLine "a") (SBlock (SSeq (SLine "b") (SBlock (SLine "c")))))
     <= maxInt
  /\ run (SSeq (SLine "a") (SBlock (SSeq (SLine "b") (SBlock (SLine "c")))))
         New
     = Done (mkGenerator
               ("a" ++ nl ++ "  b" ++ nl ++ "    c" ++ nl) 0 "  " true)
  /\ indentLevel
       (mkGenerator ("a" ++ nl ++ "  b" ++ nl ++ "    c" ++ nl) 0 "  " true)
     = indentLevel New.
Proof.
  assert (H0 : 0 <= indentLevel New) by (simpl; lia).
  assert (Hm : indentLevel New
               + indents
                   (SSeq (SLine "a")
                      (SBlock (SSeq (SLine "b") (SBlock (SLine "c")))))
               <= maxInt) by (vm_compute; discriminate).
  assert (E : run (SSeq (SLine "a")
                     (SBlock (SSeq (SLine "b") (SBlock (SLine "c"))))) New
              = Done (mkGenerator
                        ("a" ++ nl ++ "  b" ++ nl ++ "    c" ++ nl)
                        0 "  " true)) by reflexivity.
  split; [reflexivity|]. split; [exact H0|]. split; [exact Hm|].
  split; [exact E|].
  apply (Block_restores_depth
           (SSeq (SLine "a") (SBlock (SSeq (SLine "b") (SBlock (SLine "c")))))
           New _ eq_refl H0 Hm E).
Defined.

(** ** When the prefix cannot be built *)

(** X13. [Inline] panics before it writes anything when a prefix is due
    at once and [strings.Repeat] cannot build it: with the cursor at the
    start of a line and a content whose first byte is not a break, a
    depth or unit on which [strings.Repeat] panics (a negative depth, a
    prefix longer than an [int] can count) makes [Inline] panic with the
    message of [strings.Repeat] and leave the generator as it was. *)
Theorem Inline_panics_without_prefix
        (c : ascii) (rest msg : string) (g : Generator) :
  Repeat (indentString g) (indentLevel g) = Panics msg ->
  atStartOfLine g = true ->
  Ascii.eqb c LF = false ->
  Inline (String c rest) g = Panic msg g.
Proof.
  intros HR Hf Hc. rewrite Inline_bytes. cbn [write_bytes].
  unfold write_byte. now rewrite Hc, Hf, HR.
Qed.

Lemma Inline_panics_without_prefix_witness :
  Repeat (indentString (mkGenerator "x" (-1) "  " true))
         (indentLevel (mkGenerator "x" (-1) "  " true))
  = Panics "strings: negative Repeat count"
  /\ Inline "ab" (mkGenerator ("x" ++ nl) (-1) "  " true)
     = Panic "strings: negative Repeat count"
         (mkGenerator ("x" ++ nl) (-1) "  " true)
  /\ Inline "ab" (mkGenerator EmptyString (2 ^ 62) "  " true)
     = Panic "strings: Repeat output length overflow"
         (mkGenerator EmptyString (2 ^ 62) "  " true).
Proof.
  split; [reflexivity|]. split.
  - apply (Inline_panics_without_prefix
             (Ascii.ascii_of_nat 97) "b" "strings: negative Repeat count"
             (mkGenerator ("x" ++ nl) (-1) "  " true));
      reflexivity.
  - apply (Inline_panics_without_prefix
             (Ascii.ascii_of_nat 97) "b"
             "strings: Repeat output length overflow"
             (mkGenerator EmptyString (2 ^ 62) "  " true));
      reflexivity.
Defined.



(** ** When [Inline] panics *)

Lemma write_byte_indent (c : ascii) (g : Generator) :
  same_indent g (state_of (write_byte c g)).
Proof.
  unfold write_byte, same_indent. destruct (Ascii.eqb c LF); [now split|].
  destruct (atStartOfLine g); [|now split].
  destruct (Repeat (indentString g) (indentLevel g)); now split.
Qed.

Lemma write_byte_panic (c : ascii) (g g' : Generator) (msg : string) :
  write_byte c g = Panic msg g' ->
  Repeat (indentString g) (indentLevel g) = Panics msg.
Proof.
  unfold write_byte. destruct (Ascii.eqb c LF); [discriminate|].
  destruct (atStartOfLine g); [|discriminate].
  destruct (Repeat (indentString g) (indentLevel g)); cbn [and_then];
    [discriminate | now intros [= <- _]].
Qed.

Lemma write_bytes_panic (content : string) :
  forall (g g' : Generator) (msg : string),
    write_bytes content g = Panic msg g' ->
    Repeat (indentString g) (indentLevel g) = Panics msg.
Proof.
  induction content as [|c content IH]; intros g g' msg E; [discriminate|].
  cbn [write_bytes] in E.
  pose proof (write_byte_indent c g) as [L U].
  destruct (write_byte c g) as [g1|msg1 g1] eqn:E1; cbn [and_then] in E.
  - cbn [state_of] in L, U. apply IH in E. now rewrite L, U in E.
  - injection E as -> _. now apply write_byte_panic in E1.
Qed.

(** The only panic of [Inline] is the one of [strings.Repeat] on the
    unit and the depth of the generator. *)
Lemma Inline_panic_inv (content : string) (g g' : Generator) (msg : string) :
  Inline content g = Panic msg g' ->
  Repeat (indentString g) (indentLevel g) = Panics msg.
Proof. rewrite Inline_bytes. apply write_bytes_panic. Qed.

Lemma Inline_extends (content : string) (g : Generator) :
  extends (sb g) (sb (state_of (Inline content g))).
Proof. rewrite Inline_bytes. apply write_bytes_extends. Qed.

Lemma Line_panic_inv (content : string) (g g' : Generator) (msg : string) :
  Line content g = Panic msg g' -> Inline content g = Panic msg g'.
Proof.
  unfold Line. destruct (Inline content g); cbn [and_then];
    [discriminate | trivial].
Qed.

(** ** The claims that meet the panics of [strings.Repeat] *)




(** C6, as the claim has it, fails.  On the generator on which [Inline]
    panics after a partial write, [Line] panics with it: no break is
    added after the content, and the call does not return. *)
Lemma Line_panics_without_break :
  Line ("a" ++ nl ++ "b") (mkGenerator EmptyString (2 ^ 62) "  " false)
  = Panic "strings: Repeat output length overflow"
      (mkGenerator ("a" ++ nl) (2 ^ 62) "  " true).
Proof. vm_compute. reflexivity. Qed.

(** C6, as the code has it.  [Line] is [Inline] followed by [Break]: on
    every content and every generator it ends as the two calls in
    sequence end.  Whenever [Inline] returns, [Line] returns with the
    buffer that [Inline] left plus exactly one break, depth and unit as
    [Inline] left them, and the cursor at the start of a line, and [Line]
    returns in no other way.  Whenever [Inline] panics -- the panic of
    [strings.Repeat] -- [Line] panics with it, [Break] is not reached and
    no break is added. *)
Theorem Line_is_Inline_then_Break (content : string) (g : Generator) :
  Line content g = run (SSeq (SInline content) SBreak) g
  /\ (forall g1,
        Inline content g = Done g1 ->
        Line content g
        = Done (mkGenerator (sb g1 ++ nl) (indentLevel g1) (indentString g1)
                  true))
  /\ (forall g',
        Line content g = Done g' ->
        exists g1,
          Inline content g = Done g1
          /\ g' = mkGenerator (sb g1 ++ nl) (indentLevel g1)
                    (indentString g1) true)
  /\ (forall msg g1,
        Inline content g = Panic msg g1 -> Line content g = Panic msg g1)
  /\ (forall msg g',
        Line content g = Panic msg g' ->
        Inline content g = Panic msg g'
        /\ Repeat (indentString g) (indentLevel g) = Panics msg).
Proof.
  split; [reflexivity|]. unfold Line. repeat split.
  - intros g1 E. now rewrite E.
  - intros g'. destruct (Inline content g) as [g1|msg g1]; cbn [and_then];
      [|discriminate].
    intros [= <-]. exists g1. split; reflexivity.
  - intros msg g1 E. now rewrite E.
  - now apply Line_panic_inv.
  - apply Line_panic_inv in H. now apply Inline_panic_inv in H.
Qed.

Lemma Line_is_Inline_then_Break_witness :
  Inline ("a" ++ nl ++ "b") (Indent New)
  = Done (mkGenerator ("  a" ++ nl ++ "  b") 1 "  " false)
  /\ Line ("a" ++ nl ++ "b") (Indent New)
     = Done (mkGenerator ("  a" ++ nl ++ "  b" ++ nl) 1 "  " true)
  /\ Line ("a" ++ nl ++ "b") (mkGenerator EmptyString (2 ^ 62) "  " false)
     = Panic "strings: Repeat output length overflow"
         (mkGenerator ("a" ++ nl) (2 ^ 62) "  " true).
Proof.
  assert (E : Inline ("a" ++ nl ++ "b") (Indent New)
              = Done (mkGenerator ("  a" ++ nl ++ "  b") 1 "  " false))
    by reflexivity.
  split; [exact E|]. split.
  - destruct (Line_is_Inline_then_Break ("a" ++ nl ++ "b") (Indent New))
      as [_ [R _]].
    rewrite (R _ E). reflexivity.
  - destruct (Line_is_Inline_then_Break ("a" ++ nl ++ "b")
                (mkGenerator EmptyString (2 ^ 62) "  " false))
      as [_ [_ [_ [P _]]]].
    apply P. vm_compute. reflexivity.
Defined.

(** C3, as the code has it.  A formatted variant has no error of its own
    to report.  Whatever the template and the operands, matching or not:
    [Rawf] returns, with the formatter's string added to the buffer as it
    is.  [Inlinef] and [Linef] end as [Inline] and [Line] end on the
    formatter's string: when they return they have written it by the
    contract of [Inline] ([Linef] with its break), they return whenever
    [strings.Repeat] returns the prefix, and the only panic they can end
    in is the one of [strings.Repeat] on the unit and the depth, which
    the template has no part in.  However a variant ends, the text
    written before it stays in place at the head of the buffer. *)
Theorem formatted_variants_report_no_error
        (any : Type) (Sprintf : string -> list any -> string)
        (format : string) (args : list any) (g : Generator) :
  sb (Rawf Sprintf format args g) = sb g ++ Sprintf format args
  /\ (forall g',
        Inlinef Sprintf format args g = Done g' ->
        g' = Inline_spec (Sprintf format args) g)
  /\ (forall g',
        Linef Sprintf format args g = Done g' ->
        g' = Break (Inline_spec (Sprintf format args) g))
  /\ (forall prefix,
        Repeat (indentString g) (indentLevel g) = Ok prefix ->
        Inlinef Sprintf format args g
        = Done (Inline_spec (Sprintf format args) g)
        /\ Linef Sprintf format args g
           = Done (Break (Inline_spec (Sprintf format args) g)))
  /\ (forall msg g',
        Inlinef Sprintf format args g = Panic msg g'
        \/ Linef Sprintf format args g = Panic msg g' ->
        Repeat (indentString g) (indentLevel g) = Panics msg)
  /\ extends (sb g) (sb (state_of (Inlinef Sprintf format args g)))
  /\ extends (sb g) (sb (state_of (Linef Sprintf format args g))).
Proof.
  unfold Rawf, Inlinef, Linef.
  split; [apply Raw_verbatim_sb|].
  split; [intros g'; apply Inline_done|].
  split.
  { intros g'. unfold Line.
    destruct (Inline (Sprintf format args) g) as [g1|msg g1] eqn:E;
      cbn [and_then]; [|discriminate].
    intros [= <-]. now apply Inline_done in E as ->. }
  split.
  { intros prefix HR. split;
      [now apply (Inline_returns _ _ prefix)
      | now apply (Line_returns _ _ prefix)]. }
  split.
  { intros msg g' [E | E].
    - now apply Inline_panic_inv in E.
    - apply Line_panic_inv in E. now apply Inline_panic_inv in E. }
  split; [apply Inline_extends|].
  apply (run_extends (SLine (Sprintf format args)) g).
Qed.

Lemma formatted_variants_report_no_error_witness :
  Repeat (indentString New) (indentLevel New) = Ok EmptyString
  /\ Linef Fmt.Sprintf "%d items" [Fmt.AString "x"] New
     = Done (mkGenerator ("%!d(string=x) items" ++ nl) 0 "  " true)
  /\ Repeat "  " (2 ^ 62) = Panics "strings: Repeat output length overflow".
Proof.
  assert (H : Repeat (indentString New) (indentLevel New) = Ok EmptyString)
    by reflexivity.
  split; [exact H|].
  destruct (formatted_variants_report_no_error
              Fmt.operand Fmt.Sprintf "%d items" [Fmt.AString "x"] New)
    as [_ [_ [_ [E _]]]].
  split.
  - rewrite (proj2 (E _ H)). reflexivity.
  - destruct (formatted_variants_report_no_error
                Fmt.operand Fmt.Sprintf "%d" [Fmt.AString "x"]
                (mkGenerator EmptyString (2 ^ 62) "  " true))
      as [_ [_ [_ [_ [P _]]]]].
    apply (P _ (mkGenerator EmptyString (2 ^ 62) "  " true)).
    left. vm_compute. reflexivity.
Defined.

(** C10, as the claim has it, fails.  [WithSpaces] on the largest [int],
    an argument that is not negative, panics: [strings.Repeat] asks the
    runtime for 2^63 - 1 bytes, more than the runtime allocates. *)
Lemma WithSpaces_maxInt_panics :
  is_int maxInt
  /\ 0 <= maxInt
  /\ WithSpaces maxInt New
     = Panic "makeslice: len out of range" New.
Proof.
  split; [vm_compute; split; discriminate|].
  split; [vm_compute; discriminate|].
  vm_compute. reflexivity.
Qed.

(** C10, as the code has it.  [WithSpaces] on an [int] argument returns
    for arguments from 0 to the allocation limit of the runtime (2^48) at
    most: when it returns, the argument lies in that range, the unit is
    that many spaces and the rest of the generator is untouched; it
    returns whenever [strings.Repeat] returns its copies.  For every
    negative argument it panics in [strings.Repeat], and for every
    argument above the allocation limit it panics in the runtime; both
    panics come before the assignment and leave the generator as it was.
    Nothing rejects or clamps the value. *)
Theorem WithSpaces_outcomes (spaces : Z) (g : Generator) :
  is_int spaces ->
  (forall g',
     WithSpaces spaces g = Done g' ->
     0 <= spaces <= maxAlloc
     /\ g' = mkGenerator (sb g) (indentLevel g) (n_spaces (Z.to_nat spaces))
               (atStartOfLine g))
  /\ (forall copies,
        Repeat " " spaces = Ok copies ->
        WithSpaces spaces g
        = Done (mkGenerator (sb g) (indentLevel g)
                  (n_spaces (Z.to_nat spaces)) (atStartOfLine g)))
  /\ (spaces < 0 ->
      WithSpaces spaces g = Panic "strings: negative Repeat count" g)
  /\ (maxAlloc < spaces ->
      WithSpaces spaces g
      = Panic "makeslice: len out of range" g).
Proof.
  intros [Hlo Hhi].
  assert (R : forall copies,
             Repeat " " spaces = Ok copies ->
             WithSpaces spaces g
             = Done (mkGenerator (sb g) (indentLevel g)
                       (n_spaces (Z.to_nat spaces)) (atStartOfLine g))).
  { intros copies E. unfold WithSpaces. rewrite E.
    apply Repeat_Ok_inv in E. subst copies. now rewrite repeat_space. }
  split; [|split; [exact R|split]].
  - intros g' E.
    destruct (Repeat " " spaces) as [copies|msg] eqn:ER.
    + rewrite (R copies eq_refl) in E. injection E as <-.
      split; [|reflexivity].
      destruct (Repeat_Ok_bounds _ _ _ ER) as [H0 Hb].
      split; [exact H0|].
      unfold len in Hb. simpl String.length in Hb.
      change (Z.of_nat 1) with 1 in Hb. rewrite maxAlloc_value in *. lia.
    + unfold WithSpaces in E. rewrite ER in E. discriminate.
  - intros Hneg. unfold WithSpaces. now rewrite Repeat_negative.
  - intros Hbig. unfold WithSpaces. rewrite Repeat_above_maxAlloc.
    + reflexivity.
    + unfold len. simpl String.length. change (Z.of_nat 1) with 1. lia.
    + rewrite maxAlloc_value in Hbig. lia.
Qed.

Lemma WithSpaces_outcomes_witness :
  is_int 4 /\ is_int (-1) /\ is_int (2 ^ 48 + 1)
  /\ WithSpaces 4 New = Done (mkGenerator EmptyString 0 "    " true)
  /\ WithSpaces (-1) New = Panic "strings: negative Repeat count" New
  /\ WithSpaces (2 ^ 48 + 1) New
     = Panic "makeslice: len out of range" New.
Proof.
  assert (H4 : is_int 4) by (vm_compute; split; discriminate).
  assert (H1 : is_int (-1)) by (vm_compute; split; discriminate).
  assert (Hb : is_int (2 ^ 48 + 1)) by (vm_compute; split; discriminate).
  split; [exact H4|]. split; [exact H1|]. split; [exact Hb|].
  split; [|split].
  - destruct (WithSpaces_outcomes 4 New H4) as [_ [R _]].
    apply (R "    "). reflexivity.
  - destruct (WithSpaces_outcomes (-1) New H1) as [_ [_ [N _]]].
    apply N. lia.
  - destruct (WithSpaces_outcomes (2 ^ 48 + 1) New Hb) as [_ [_ [_ B]]].
    apply B. vm_compute. reflexivity.
Defined.

(** ** Lines *)

Lemma Line_single (content prefix : string) (g : Generator) :
  Repeat (indentString g) (indentLevel g) = Ok prefix ->
  atStartOfLine g = true ->
  contains_byte LF content = false ->
  Line content g
  = Done (mkGenerator
            (sb g ++ subline_text (indentation g) true content ++ nl)
            (indentLevel g) (indentString g) true).
Proof.
  intros Hg Hf Hc. rewrite (Line_returns _ _ _ Hg).
  destruct g as [buffer level unit flag]. cbn [atStartOfLine] in Hf. subst.
  destruct content as [|c content]; [reflexivity|].
  unfold Inline_spec, Inline_text, Break, WriteString, set_atStartOfLine.
  rewrite (Split_absent _ _ Hc).
  cbn [sb indentLevel indentString atStartOfLine later_sublines_text].
  now rewrite append_nil_r, append_assoc.
Qed.

Lemma lines_render (contents : list string) (prefix : string) :
  Forall (fun content => contains_byte LF content = false) contents ->
  forall g : Generator,
    Repeat (indentString g) (indentLevel g) = Ok prefix ->
    atStartOfLine g = true ->
    run (lines contents) g
    = Done (mkGenerator
              (sb g ++ render_lines (indentation g) contents)
              (indentLevel g) (indentString g) true).
Proof.
  induction 1 as [|content rest Hc Hrest IH]; intros g Hg Hf.
  - destruct g as [buffer level unit flag]. cbn in Hf. subst.
    cbn. now rewrite append_nil_r.
  - cbn [lines run render_lines]. rewrite (Line_single _ _ _ Hg Hf Hc).
    cbn [and_then]. rewrite IH; [|exact Hg|reflexivity].
    unfold indentation. cbn [sb indentLevel indentString].
    now rewrite !append_assoc.
Qed.

(** X10. Lines come out indented.  A run of [Line] calls on contents
    without breaks, started at the start of a line on a generator for
    whose unit and depth [strings.Repeat] returns the prefix, returns; it
    adds to the buffer each content after the prefix (the unit, depth
    times; nothing before an empty content) and closed by one break, in
    order, and ends at the start of a line with depth and unit
    unchanged. *)
Theorem lines_rendered (contents : list string) (prefix : string)
        (g : Generator) :
  Repeat (indentString g) (indentLevel g) = Ok prefix ->
  atStartOfLine g = true ->
  Forall (fun content => contains_byte LF content = false) contents ->
  run (lines contents) g
  = Done (mkGenerator
            (sb g ++ render_lines (indentation g) contents)
            (indentLevel g) (indentString g) true).
Proof. intros Hg Hf Hc. now apply (lines_render contents prefix). Qed.

Lemma lines_rendered_witness :
  Repeat (indentString (Indent New)) (indentLevel (Indent New)) = Ok "  "
  /\ atStartOfLine (Indent New) = true
  /\ Forall (fun content => contains_byte LF content = false)
       ["a"; EmptyString; "b"]
  /\ run (lines ["a"; EmptyString; "b"]) (Indent New)
     = Done (mkGenerator ("  a" ++ nl ++ nl ++ "  b" ++ nl) 1 "  " true).
Proof.
  assert (Hg : Repeat (indentString (Indent New)) (indentLevel (Indent New))
               = Ok "  ") by reflexivity.
  assert (Hc : Forall (fun content => contains_byte LF content = false)
                 ["a"; EmptyString; "b"])
    by (repeat constructor).
  split; [exact Hg|]. split; [reflexivity|]. split; [exact Hc|].
  rewrite (lines_rendered _ _ (Indent New) Hg eq_refl Hc). reflexivity.
Defined.

(** X11. [Block] writes its lines one level deeper and gives the depth
    back: with a callback that calls [Line] on contents without breaks,
    started at the start of a line at a depth [d] with [0 <= d < maxInt],
    and when [strings.Repeat] returns the prefix of depth [d + 1], the
    call returns, the buffer gains the lines under that prefix, and the
    generator is back at depth [d] with its unit, at the start of a
    line. *)
Theorem Block_renders_lines_deeper (contents : list string) (prefix : string)
        (g : Generator) :
  0 <= indentLevel g < maxInt ->
  Repeat (indentString g) (indentLevel g + 1) = Ok prefix ->
  atStartOfLine g = true ->
  Forall (fun content => contains_byte LF content = false) contents ->
  run (SBlock (lines contents)) g
  = Done (mkGenerator
            (sb g ++ render_lines (indentation (Indent g)) contents)
            (indentLevel g) (indentString g) true).
Proof.
  intros H0 Hg Hf Hc. cbn [run]. unfold Block.
  assert (HR : Repeat (indentString (Indent g)) (indentLevel (Indent g))
               = Ok prefix)
    by (rewrite (Indent_level g H0); exact Hg).
  rewrite (lines_render _ prefix Hc (Indent g) HR Hf). cbn [and_then].
  pose proof (Dedent_undoes_Indent_level g H0) as HD.
  unfold Dedent in *. cbn [indentLevel sb indentString atStartOfLine] in *.
  rewrite (Indent_level g H0) in *.
  replace (0 <? indentLevel g + 1) with true in *
    by (symmetry; apply Z.ltb_lt; lia).
  unfold set_indentLevel in *.
  cbn [indentLevel sb indentString atStartOfLine] in *.
  now rewrite HD.
Qed.

Lemma Block_renders_lines_deeper_witness :
  0 <= indentLevel New < maxInt
  /\ Repeat (indentString New) (indentLevel New + 1) = Ok "  "
  /\ atStartOfLine New = true
  /\ Forall (fun content => contains_byte LF content = false)
       ["console.log('hello')"; "console.log('world')"]
  /\ run (SBlock (lines ["console.log('hello')"; "console.log('world')"]))
         New
     = Done (mkGenerator
               ("  console.log('hello')" ++ nl
                ++ "  console.log('world')" ++ nl)
               0 "  " true).
Proof.
  assert (H0 : 0 <= indentLevel New < maxInt)
    by (vm_compute; split; [discriminate | reflexivity]).
  assert (Hg : Repeat (indentString New) (indentLevel New + 1) = Ok "  ")
    by reflexivity.
  assert (Hc : Forall (fun content => contains_byte LF content = false)
                 ["console.log('hello')"; "console.log('world')"])
    by (repeat constructor).
  split; [exact H0|]. split; [exact Hg|]. split; [reflexivity|].
  split; [exact Hc|].
  rewrite (Block_renders_lines_deeper _ _ New H0 Hg eq_refl Hc).
  reflexivity.
Defined.

(** ** How much one write adds *)

Lemma length_append (a b : string) :
  String.length (a ++ b) = (String.length a + String.length b)%nat.
Proof. induction a as [|x a IH]; simpl; [reflexivity | now rewrite IH]. Qed.

Lemma length_repeat_string (s : string) (n : nat) :
  String.length (repeat_string s n) = (n * String.length s)%nat.
Proof.
  induction n as [|n IH]; [reflexivity|].
  cbn [repeat_string]. rewrite length_append, IH. lia.
Qed.

Lemma len_indentation (g : Generator) :
  0 <= indentLevel g ->
  len (indentation g) = len (indentString g) * indentLevel g.
Proof.
  intros H. unfold len, indentation.
  rewrite length_repeat_string, Nat2Z.inj_mul, Z2Nat.id by exact H. lia.
Qed.

(** X12. The length of the prefix is the length of the unit times the
    depth.  When [strings.Repeat] returns the prefix, a write by [Inline]
    of a content that is not empty and has no break returns and makes the
    buffer longer by the length of the content, and, when the cursor is
    at the start of a line, by [len(indentString) * indentLevel] more. *)
Theorem Inline_single_line_length (content prefix : string) (g : Generator) :
  Repeat (indentString g) (indentLevel g) = Ok prefix ->
  contains_byte LF content = false ->
  content <> EmptyString ->
  exists g',
    Inline content g = Done g'
    /\ len (sb g')
       = len (sb g)
         + (if atStartOfLine g then len (indentString g) * indentLevel g
            else 0)
         + len content.
Proof.
  intros Hg Hc Hne. exists (Inline_spec content g).
  split; [now apply (Inline_returns _ _ prefix)|].
  destruct content as [|c content]; [contradiction|].
  unfold Inline_spec, Inline_text. rewrite (Split_absent _ _ Hc).
  cbn [sb later_sublines_text subline_text]. rewrite append_nil_r.
  pose proof (len_indentation g (proj1 (Repeat_Ok_bounds _ _ _ Hg))) as HL.
  unfold len in *. rewrite !length_append.
  destruct (atStartOfLine g); cbn [String.length Nat.add]; lia.
Qed.

Lemma Inline_single_line_length_witness :
  Repeat (indentString (mkGenerator "0123" 3 "  " true))
         (indentLevel (mkGenerator "0123" 3 "  " true))
  = Ok "      "
  /\ contains_byte LF "abc" = false
  /\ "abc" <> EmptyString
  /\ exists g',
      Inline "abc" (mkGenerator "0123" 3 "  " true) = Done g'
      /\ len (sb g') = 4 + 2 * 3 + 3.
Proof.
  assert (Hg : Repeat (indentString (mkGenerator "0123" 3 "  " true))
                      (indentLevel (mkGenerator "0123" 3 "  " true))
               = Ok "      ") by reflexivity.
  assert (Hne : "abc" <> EmptyString) by discriminate.
  split; [exact Hg|]. split; [reflexivity|]. split; [exact Hne|].
  exact (Inline_single_line_length "abc" _ _ Hg eq_refl Hne).
Defined.

(** ** Where panics come from *)



